(** * make_ps_dict: CMUdict to PocketSphinx dictionary conversion

    A shallow embedding of [make_ps_dict.py] and the proofs of its
    specification.

    Data model.  The input file is opened with [encoding='latin-1'], so every
    character of an input line is a code point in 0..255: a Python [str] is
    modelled as a list of 8-bit characters ([list ascii]), the character
    being its code point.  The dictionary [word_pronunciations]
    ([defaultdict(list)]) is a finite map from base words to lists of
    pronunciation strings.  The output stream is the list of the lines
    written to it, one element per [print] call. *)

From Stdlib Require Import Ascii String DecimalString DecimalNat.
From stdpp Require Import gmap strings list sorting.

Local Open Scope list_scope.

(** ** Strings *)

Abbreviation str := (list ascii).

(** A string literal, as a list of code points. *)
Definition py (s : string) : str := list_ascii_of_string s.

Definition code (c : ascii) : nat := nat_of_ascii c.

Definition chr_eqb (a b : ascii) : bool := Ascii.eqb a b.

(** [str.isspace] on one Latin-1 character: TAB, LF, VT, FF, CR, the
    separators FS, GS, RS, US, the space, NEL (0x85) and NBSP (0xA0).
    This is the set [str.strip()] and [str.split()] use. *)
Definition isspace (c : ascii) : bool :=
  let n := code c in
  ((9 <=? n) && (n <=? 13)) || ((28 <=? n) && (n <=? 32))
  || (n =? 133) || (n =? 160).

(** The class [\d] on Latin-1 characters: the ten ASCII digits. *)
Definition isdigit (c : ascii) : bool :=
  let n := code c in (48 <=? n) && (n <=? 57).

(** ** The fragment of Python's [re] used by the script *)

Module Re.

Inductive atom : Type :=
| Chr (c : ascii)            (* an escaped literal such as [\(] *)
| OneOf (cs : str)           (* a set such as [[012]] *)
| Digit.                     (* [\d] *)

Inductive item : Type :=
| One (a : atom)             (* a *)
| Plus (a : atom)            (* a+, greedy *)
| Eos.                       (* $ *)

Definition regex := list item.

Definition atom_ok (a : atom) (c : ascii) : bool :=
  match a with
  | Chr c' => chr_eqb c c'
  | OneOf cs => existsb (chr_eqb c) cs
  | Digit => isdigit c
  end.

(** [$] without [re.MULTILINE]: the end of the string, or just before a
    newline that is the last character of the string. *)
Definition at_end (s : str) : bool :=
  match s with
  | [] => true
  | [c] => chr_eqb c "010"
  | _ => false
  end.

(** [match_plus a k s]: one or more [a], as many as possible, then the
    rest of the pattern [k]; gives back one repetition at a time when the
    rest fails.  The result is the number of characters matched. *)
Fixpoint match_plus (a : atom) (k : str -> option nat) (s : str) : option nat :=
  match s with
  | c :: s' =>
      if atom_ok a c then
        match match_plus a k s' with
        | Some n => Some (S n)
        | None => S <$> k s'
        end
      else None
  | [] => None
  end.

(** [match_len r s]: the pattern [r] matched at the beginning of [s], as
    [re.match] does; the length of the match, or [None]. *)
Fixpoint match_len (r : regex) (s : str) : option nat :=
  match r with
  | [] => Some 0
  | Eos :: r' => if at_end s then match_len r' s else None
  | One a :: r' =>
      match s with
      | c :: s' => if atom_ok a c then S <$> match_len r' s' else None
      | [] => None
      end
  | Plus a :: r' => match_plus a (match_len r') s
  end.

(** [sub_scan r skip s]: [re.sub(r, '', s)] from the current position, with
    [skip] characters of the current match still to delete.  The scan goes
    left to right; at each position outside a match the pattern is tried,
    a match is deleted and the scan goes on after it, otherwise the
    character is copied.  (A match of length 0 deletes nothing.) *)
Fixpoint sub_scan (r : regex) (skip : nat) (s : str) : str :=
  match s with
  | [] => []
  | c :: s' =>
      match skip with
      | S k => sub_scan r k s'
      | 0 =>
          match match_len r s with
          | Some (S k) => sub_scan r k s'
          | _ => c :: sub_scan r 0 s'
          end
      end
  end.

(** [re.sub(r, '', s)] *)
Definition sub_empty (r : regex) (s : str) : str := sub_scan r 0 s.

End Re.

(** ** strip_stress *)

(** The pattern [[012]$]. *)
Definition stress_re : Re.regex := [Re.One (Re.OneOf (py "012")); Re.Eos].

Definition strip_stress (phoneme : str) : str := Re.sub_empty stress_re phoneme.

(** ** String methods used by the line parser *)

(** [s.strip()]: whitespace removed at both ends. *)
Fixpoint lstrip (s : str) : str :=
  match s with
  | c :: s' => if isspace c then lstrip s' else s
  | [] => []
  end.

Definition rstrip (s : str) : str := reverse (lstrip (reverse s)).

Definition strip (s : str) : str := rstrip (lstrip s).

(** [s.startswith(prefix)] *)
Fixpoint startswith (prefix s : str) : bool :=
  match prefix, s with
  | [], _ => true
  | p :: prefix', c :: s' => chr_eqb p c && startswith prefix' s'
  | _ :: _, [] => false
  end.

(** [c in s] for a one-character string [c]. *)
Definition contains (c : ascii) (s : str) : bool := existsb (chr_eqb c) s.

(** [s.split(sep)] for a one-character separator; [cur] is the field being
    read.  The result is never empty. *)
Fixpoint split_on (sep : ascii) (cur s : str) : list str :=
  match s with
  | [] => [cur]
  | c :: s' =>
      if chr_eqb c sep then cur :: split_on sep [] s'
      else split_on sep (cur ++ [c]) s'
  end.

(** [s.split()]: the maximal runs of non-whitespace characters; [tok] is the
    token being read. *)
Fixpoint split_ws (tok s : str) : list str :=
  match s with
  | [] => match tok with [] => [] | _ => [tok] end
  | c :: s' =>
      if isspace c then
        match tok with [] => split_ws [] s' | _ => tok :: split_ws [] s' end
      else split_ws (tok ++ [c]) s'
  end.

Definition split (s : str) : list str := split_ws [] s.

(** [' '.join(l)] *)
Fixpoint join (l : list str) : str :=
  match l with
  | [] => []
  | [x] => x
  | x :: l' => x ++ " "%char :: join l'
  end.

(** [str(n)] for a natural number: its decimal digits. *)
Definition str_of_nat (n : nat) : str :=
  py (NilEmpty.string_of_uint (Nat.to_uint n)).

(** ** parse_cmudict_line *)

(** The pattern [\(\d+\)$]. *)
Definition variant_re : Re.regex :=
  [Re.One (Re.Chr "("); Re.Plus Re.Digit; Re.One (Re.Chr ")"); Re.Eos].

Definition parse_cmudict_line (line : str) : option (str * list str) :=
  let line := strip line in
  if bool_decide (line = []) || startswith (py ";;;") line then None
  else
    let line :=
      if contains "#" line then strip (default [] (head (split_on "#" [] line)))
      else line in
    let parts := split line in
    if length parts <? 2 then None
    else
      let word_with_variant := default [] (parts !! 0) in
      let phonemes := drop 1 parts in
      let base_word := Re.sub_empty variant_re word_with_variant in
      Some (base_word, phonemes).

(** ** convert_dict *)

(** [d[k]] on a [defaultdict(list)]: a missing key is inserted with the
    empty list. *)
Definition getitem (d : gmap str (list str)) (k : str) : list str * gmap str (list str) :=
  match d !! k with
  | Some v => (v, d)
  | None => ([], <[k := []]> d)
  end.

(** [d[k].append(x)] *)
Definition append_item (d : gmap str (list str)) (k x : str) : gmap str (list str) :=
  let '(v, d) := getitem d k in <[k := v ++ [x]]> d.

(** The body of the reading loop: one input line. *)
Definition accumulate (word_pronunciations : gmap str (list str)) (line : str)
  : gmap str (list str) :=
  match parse_cmudict_line line with
  | None => word_pronunciations
  | Some (base_word, phonemes) =>
      let phonemes_no_stress := strip_stress <$> phonemes in
      let pronunciation := join phonemes_no_stress in
      let '(known, word_pronunciations) := getitem word_pronunciations base_word in
      if bool_decide (pronunciation ∈ known) then word_pronunciations
      else append_item word_pronunciations base_word pronunciation
  end.

(** Code point order on strings, the order of [str.__lt__]. *)
Fixpoint str_leb (a b : str) : bool :=
  match a, b with
  | [], _ => true
  | _ :: _, [] => false
  | x :: a', y :: b' =>
      if code x <? code y then true
      else if code y <? code x then false
      else str_leb a' b'
  end.

Definition str_le (a b : str) : Prop := str_leb a b = true.

Global Instance str_le_dec a b : Decision (str_le a b).
Proof. unfold str_le. apply _. Defined.

(** [sorted(d)]: the keys of the dictionary in ascending order.  The order
    is total and antisymmetric, so every sorting algorithm returns the same
    list, whatever order the keys are taken in ([sorted_unique] below). *)
Definition sorted (d : gmap str (list str)) : list str :=
  merge_sort str_le (map_to_list d).*1.

(** [enumerate(l)] *)
Definition enumerate {A} (l : list A) : list (nat * A) := imap (λ i x, (i, x)) l.

(** [print(text, file=outfile)]: one more line on the stream. *)
Definition print (text : str) (outfile : list str) : list str := outfile ++ [text].

Definition word_variant (base_word : str) (idx : nat) : str :=
  if idx =? 0 then base_word
  else base_word ++ py "(" ++ str_of_nat (idx + 1) ++ py ")".

(** The body of the inner writing loop; the state is the output stream and
    the counter [entries_written]. *)
Definition write_entry (base_word : str) (st : list str * nat) (ip : nat * str)
  : list str * nat :=
  let '(outfile, entries_written) := st in
  let '(idx, pronunciation) := ip in
  (print (word_variant base_word idx ++ py " " ++ pronunciation) outfile,
   entries_written + 1).

(** The body of the outer writing loop; [base_word] is a key of the
    dictionary there. *)
Definition write_word (word_pronunciations : gmap str (list str))
    (st : list str * nat) (base_word : str) : list str * nat :=
  let pronunciations := default [] (word_pronunciations !! base_word) in
  foldl (write_entry base_word) st (enumerate pronunciations).

(** [convert_dict(infile, outfile)]: [infile] is the sequence of the lines of
    the input stream; the result is the returned count and the output stream
    after the call. *)
Definition convert_dict (infile : list str) (outfile : list str) : nat * list str :=
  let word_pronunciations := foldl accumulate ∅ infile in
  let '(outfile, entries_written) :=
    foldl (write_word word_pronunciations) (outfile, 0) (sorted word_pronunciations) in
  (entries_written, outfile).

(** * Vocabulary of the specification *)

(** ** Characters *)

Definition LF : ascii := "010"%char.

Definition is_stress (c : ascii) : bool := bool_decide (c ∈ py "012").

(** ** Stress digits at the end of a token *)

Definition ends_with_stress (p : str) : bool :=
  match last p with
  | Some c => is_stress c
  | None => false
  end.

(** [p] ends with a stress digit followed by a newline. *)
Definition stress_before_newline (p : str) : bool :=
  bool_decide (last p = Some LF) && ends_with_stress (removelast p).

(** The contract as the specification words it: the final character goes
    when it is a stress digit, and nothing changes otherwise. *)
Definition strips_final_digit_only (p : str) : Prop :=
  (ends_with_stress p = true → strip_stress p = removelast p) ∧
  (ends_with_stress p = false → strip_stress p = p).

Definition ends_with_two_stress (p : str) : bool :=
  ends_with_stress p && ends_with_stress (removelast p).

(** ** Whitespace: strip and split *)

Definition blank (s : str) : Prop := Forall (λ c, isspace c = true) s.
Definition solid (s : str) : Prop := Forall (λ c, isspace c = false) s.

(** ** Truncation at the first occurrence of a character *)

(** The characters of [s] before the first [c]; all of [s] when there is
    none. *)
Fixpoint before (c : ascii) (s : str) : str :=
  match s with
  | [] => []
  | x :: s' => if chr_eqb x c then [] else x :: before c s'
  end.

(** ** The pattern of the variant marker *)

Definition digits (ds : str) : Prop := Forall (λ c, isdigit c = true) ds.

(** The rest of the pattern after [\d+]. *)
Definition close_re : Re.regex := [Re.One (Re.Chr ")"); Re.Eos].

(** ** The base word of a token *)

(** [tok] is [w] followed by a parenthesized, non-empty run of digits. *)
Definition has_variant (tok w : str) : Prop :=
  ∃ ds, ds ≠ [] ∧ digits ds ∧ tok = w ++ py "(" ++ ds ++ py ")".

(** The token with a trailing parenthesized run of digits removed. *)
Definition base_word_of (tok base : str) : Prop :=
  has_variant tok base ∨ ((∀ w, ¬ has_variant tok w) ∧ base = tok).

(** ** Skipped lines *)

(** The tokens of a line: the trimmed line, cut at its first '#', split on
    runs of whitespace. *)
Definition tokens_of (line : str) : list str := split (before "#" (strip line)).

Definition skipped (line : str) : Prop :=
  strip line = [] ∨ py ";;;" `prefix_of` strip line ∨ length (tokens_of line) < 2.

(** ** The reading loop *)

(** The entry a line contributes: its base word and its normalized
    pronunciation string. *)
Definition entry_of (line : str) : option (str * str) :=
  match parse_cmudict_line line with
  | Some (base_word, phonemes) => Some (base_word, join (strip_stress <$> phonemes))
  | None => None
  end.

(** The pronunciations read for [w], one per entry of [w], in input order. *)
Definition heard (w : str) (infile : list str) : list str :=
  omap (λ line, match entry_of line with
                | Some (w', p) => if decide (w' = w) then Some p else None
                | None => None
                end) infile.

(** The distinct elements of a list, in the order of their first
    occurrence. *)
Fixpoint distinct (l : list str) : list str :=
  match l with
  | [] => []
  | x :: l' => x :: filter (λ y, y ≠ x) (distinct l')
  end.

(** The dictionary after the reading loop, and what the writing loops see
    in it. *)
Definition dict_of (infile : list str) : gmap str (list str) :=
  foldl accumulate ∅ infile.

Definition pronunciations (infile : list str) (w : str) : list str :=
  default [] (dict_of infile !! w).

Definition base_words (infile : list str) : list str := sorted (dict_of infile).

(** ** The writing loops *)

(** One [print] call of the inner loop: the loop variables [base_word],
    [idx] and [pronunciation] at the call. *)
Definition call : Type := str * nat * str.

Definition call_word (c : call) : str := c.1.1.

(** The text a call prints. *)
Definition line_of (c : call) : str :=
  let '(w, i, p) := c in word_variant w i ++ py " " ++ p.

(** The calls of the iteration of the outer loop for [w]. *)
Definition calls_for (infile : list str) (w : str) : list call :=
  imap (λ i p, (w, i, p)) (pronunciations infile w).

(** All the calls, in the order they are made. *)
Definition calls (infile : list str) : list call :=
  base_words infile ≫= calls_for infile.

(** ** Suffix numbering *)

(** The label of a line when the suffix number is the index plus [k]. *)
Definition label (k : nat) (w : str) (i : nat) : str :=
  if decide (i = 0) then w else w ++ py "(" ++ str_of_nat (i + k) ++ py ")".

(** Every call [(w, i, p)] prints [p] under the word labelled with suffix
    number [i + k]. *)
Definition labelled_by (k : nat) (infile : list str) : Prop :=
  ∀ outfile,
    (convert_dict infile outfile).2
    = outfile ++ ((λ c : call, label k c.1.1 c.1.2 ++ py " " ++ c.2) <$> calls infile).

(** ** Misplaced spaces *)

Definition SP : ascii := " "%char.

Definition leading_space (s : str) : Prop := ∃ t, s = SP :: t.
Definition trailing_space (s : str) : Prop := ∃ t, s = t ++ [SP].
Definition double_space (s : str) : Prop := ∃ a b, s = a ++ SP :: SP :: b.

(** ** Entries of the input *)

(** The entries of the input, one per line that is not skipped, in input
    order. *)
Definition entries (infile : list str) : list (str * str) := omap entry_of infile.

(** The base word and the pronunciation of a call. *)
Definition call_pair (c : call) : str * str := (c.1.1, c.2).

(** A character that is neither whitespace nor '#'. *)
Definition tidy (c : ascii) : Prop := isspace c = false ∧ c ≠ "#"%char.

(** * Properties *)

(** ** Examples *)

Example strip_stress_AH0 : strip_stress (py "AH0") = py "AH".
Proof. reflexivity. Qed.

Example strip_stress_T : strip_stress (py "T") = py "T".
Proof. reflexivity. Qed.

Example strip_stress_inner_digit : strip_stress (py "A1H") = py "A1H".
Proof. reflexivity. Qed.

Example str_of_nat_10 : str_of_nat 10 = py "10".
Proof. reflexivity. Qed.

Example parse_hello :
  parse_cmudict_line (py "hello HH AH0 L OW1")
  = Some (py "hello", [py "HH"; py "AH0"; py "L"; py "OW1"]).
Proof. reflexivity. Qed.

Example parse_world_2 :
  parse_cmudict_line (py "world(2) W ER1 L D" ++ [LF])
  = Some (py "world", [py "W"; py "ER1"; py "L"; py "D"]).
Proof. reflexivity. Qed.

Example parse_comment : parse_cmudict_line (py ";;; comment") = None.
Proof. reflexivity. Qed.

Example parse_inline_comment :
  parse_cmudict_line (py "hello # HH AH0") = None.
Proof. reflexivity. Qed.

Example convert_interest :
  convert_dict [py "interest IH1 N T R AH0 S T" ++ [LF];
                py "interest(2) IH1 N T R IH0 S T" ++ [LF]] []
  = (2, [py "interest IH N T R AH S T"; py "interest(2) IH N T R IH S T"]).
Proof. vm_compute. reflexivity. Qed.

Example convert_read :
  convert_dict [py "read R EH1 D"; py "read(2) R EH2 D"] []
  = (1, [py "read R EH D"]).
Proof. vm_compute. reflexivity. Qed.

Example convert_sorted :
  convert_dict [py "b B"; py ";;; c"; py "a AH0"; py "b(2) B1"; py "b(3) D"; py "Z Z"] []
  = (4, [py "Z Z"; py "a AH"; py "b B"; py "b(2) D"]).
Proof. vm_compute. reflexivity. Qed.

(** ** Characters *)

Lemma chr_eqb_eq a b : chr_eqb a b = true ↔ a = b.
Proof. apply Ascii.eqb_eq. Qed.

Lemma existsb_chr c cs : existsb (chr_eqb c) cs = bool_decide (c ∈ cs).
Proof.
  induction cs as [|x cs IH]; cbn [existsb].
  - symmetry. apply bool_decide_eq_false_2, not_elem_of_nil.
  - rewrite IH. destruct (chr_eqb c x) eqn:E.
    + apply chr_eqb_eq in E as ->. symmetry. apply bool_decide_eq_true_2. left.
    + simpl. apply bool_decide_ext. rewrite elem_of_cons.
      split; [tauto|]. intros [->|?]; [|done].
      rewrite (proj2 (chr_eqb_eq x x)) in E; done.
Qed.

(** ** Deletion of the matches of a pattern *)

Section sub.
Variable r : Re.regex.

Lemma sub_scan_skip k s : Re.sub_scan r k s = Re.sub_scan r 0 (drop k s).
Proof.
  revert k. induction s as [|c s IH]; intros [|k]; try reflexivity.
  simpl. apply IH.
Qed.

(** Where the pattern matches nowhere in [q ++ t] at a position inside [q],
    the characters of [q] are all kept. *)
Lemma sub_scan_keep q t :
  (∀ u, u ≠ [] → u `suffix_of` q → Re.match_len r (u ++ t) = None) →
  Re.sub_scan r 0 (q ++ t) = q ++ Re.sub_scan r 0 t.
Proof.
  induction q as [|c q IH]; intros Hno; [reflexivity|].
  change ((c :: q) ++ t) with (c :: (q ++ t)). cbn [Re.sub_scan].
  change (c :: (q ++ t)) with ((c :: q) ++ t).
  rewrite (Hno (c :: q)); [|done|done].
  cbn [app]. f_equal. apply IH. intros u Hu Hsuf.
  apply Hno; [done|]. by apply suffix_cons_r.
Qed.

Lemma sub_scan_match s n :
  Re.match_len r s = Some n → length s ≤ n → s ≠ [] → Re.sub_scan r 0 s = [].
Proof.
  intros Hm Hlen Hs. destruct s as [|c s]; [done|].
  cbn [Re.sub_scan]. rewrite Hm. destruct n as [|n]; simpl in Hlen; [lia|].
  rewrite sub_scan_skip, drop_ge; [done|lia].
Qed.
End sub.

(** ** The pattern of strip_stress *)

Lemma stress_match s :
  Re.match_len stress_re s =
    match s with
    | c :: t => if is_stress c && Re.at_end t then Some 1 else None
    | [] => None
    end.
Proof.
  destruct s as [|c t]; [reflexivity|].
  unfold stress_re. cbn [Re.match_len Re.atom_ok]. rewrite existsb_chr.
  fold (is_stress c). destruct (is_stress c), (Re.at_end t); reflexivity.
Qed.

Lemma stress_match_inv s n :
  Re.match_len stress_re s = Some n →
  ∃ d, is_stress d = true ∧ n = 1 ∧ (s = [d] ∨ s = [d; LF]).
Proof.
  rewrite stress_match. destruct s as [|c t]; [done|].
  destruct (is_stress c) eqn:Hc; [|done]. simpl.
  destruct t as [|x [|y t]]; simpl; intros H; try done.
  - exists c. split_and!; [done|congruence|by left].
  - destruct (chr_eqb x "010") eqn:Hx; [|done].
    apply chr_eqb_eq in Hx as ->. exists c. split_and!; [done|congruence|by right].
Qed.

Lemma strip_stress_final q d :
  is_stress d = true → strip_stress (q ++ [d]) = q.
Proof.
  intros Hd. unfold strip_stress, Re.sub_empty.
  rewrite sub_scan_keep.
  - rewrite (sub_scan_match _ [d] 1); [by rewrite app_nil_r| |simpl; lia|done].
    rewrite stress_match, Hd. reflexivity.
  - intros u Hu _. destruct (Re.match_len stress_re (u ++ [d])) eqn:E; [|done].
    apply stress_match_inv in E as (d' & Hd' & _ & [E|E]).
    + destruct u as [|? [|]]; simplify_eq/=.
    + destruct u as [|? [|? [|]]]; simplify_eq/=.
Qed.

Lemma strip_stress_before_newline q d :
  is_stress d = true → strip_stress (q ++ [d; LF]) = q ++ [LF].
Proof.
  intros Hd. unfold strip_stress, Re.sub_empty.
  rewrite sub_scan_keep.
  - f_equal. cbn [Re.sub_scan]. rewrite !stress_match, Hd. reflexivity.
  - intros u Hu _. destruct (Re.match_len stress_re (u ++ [d; LF])) eqn:E; [|done].
    apply stress_match_inv in E as (d' & Hd' & _ & [E|E]).
    + destruct u as [|? [|]]; simplify_eq/=.
    + destruct u as [|? [|? [|]]]; simplify_eq/=.
Qed.

Lemma strip_stress_unchanged p :
  (∀ q d, is_stress d = true → p ≠ q ++ [d] ∧ p ≠ q ++ [d; LF]) →
  strip_stress p = p.
Proof.
  intros Hp. unfold strip_stress, Re.sub_empty.
  rewrite <-(app_nil_r p) at 1. rewrite sub_scan_keep; [by rewrite app_nil_r|].
  intros u Hu [q ->]. rewrite app_nil_r.
  destruct (Re.match_len stress_re u) eqn:E; [|done].
  apply stress_match_inv in E as (d & Hd & _ & [->| ->]);
    destruct (Hp q d Hd); done.
Qed.

(** ** C3: what strip_stress removes *)

Lemma is_stress_LF : is_stress LF = false.
Proof. reflexivity. Qed.

(** C3, as stated, fails on a token that ends with a stress digit and a
    newline: the final character is the newline, yet the digit before it is
    removed. *)
Lemma strip_stress_newline_counterexample :
  ¬ strips_final_digit_only (py "AH0" ++ [LF]).
Proof.
  intros [_ H]. specialize (H eq_refl). discriminate H.
Qed.

(** C3 (amended): [strip_stress p] is [p] without its final character when
    that character is '0', '1' or '2'; it is [p] without the character before
    its final newline when [p] ends with one of '0', '1', '2' followed by a
    newline; it is [p] in every other case.  No other character is touched. *)
Theorem strip_stress_spec (p : str) :
  strip_stress p =
    if ends_with_stress p then removelast p
    else if stress_before_newline p then removelast (removelast p) ++ [LF]
    else p.
Proof.
  unfold stress_before_newline, ends_with_stress.
  induction p as [|c q _] using rev_ind; [reflexivity|].
  rewrite last_snoc, removelast_last.
  destruct (is_stress c) eqn:Hc; [by apply strip_stress_final|].
  case_bool_decide as Hlf; simpl.
  - injection Hlf as ->.
    induction q as [|d q' _] using rev_ind; [reflexivity|].
    rewrite last_snoc, removelast_last.
    destruct (is_stress d) eqn:Hd.
    + rewrite <-(assoc_L (++)). by apply strip_stress_before_newline.
    + apply strip_stress_unchanged. intros q0 d0 Hd0. split; intros E.
      * apply app_inj_tail in E as [_ <-]. by rewrite is_stress_LF in Hd0.
      * change (q0 ++ [d0; LF]) with (q0 ++ [d0] ++ [LF]) in E.
        rewrite (assoc_L (++)) in E.
        apply app_inj_tail in E as [E _]. apply app_inj_tail in E as [_ <-].
        congruence.
  - apply strip_stress_unchanged. intros q0 d0 Hd0. split; intros E.
    + apply app_inj_tail in E as [_ <-]. congruence.
    + change (q0 ++ [d0; LF]) with (q0 ++ [d0] ++ [LF]) in E.
      rewrite (assoc_L (++)) in E.
      apply app_inj_tail in E as [_ ->]. done.
Qed.

(** ** C4: idempotence of strip_stress *)

(** C4, as stated, fails on a token with two trailing stress digits: each
    application removes one of them. *)
Lemma strip_stress_twice_counterexample :
  strip_stress (strip_stress (py "AH01")) ≠ strip_stress (py "AH01").
Proof. discriminate. Qed.

Lemma strip_stress_plain (p : str) :
  LF ∉ p → ends_with_stress p = false → strip_stress p = p.
Proof.
  intros Hlf Hend. apply strip_stress_unchanged. intros q d Hd. split; intros ->.
  - unfold ends_with_stress in Hend. rewrite last_snoc in Hend. congruence.
  - apply Hlf. set_solver.
Qed.

Lemma strip_stress_idem (p : str) :
  LF ∉ p → ends_with_two_stress p = false →
  strip_stress (strip_stress p) = strip_stress p.
Proof.
  intros Hlf Htwo. unfold ends_with_two_stress in Htwo.
  destruct (ends_with_stress p) eqn:Hend; simpl in Htwo.
  - induction p as [|c q _] using rev_ind; [done|].
    unfold ends_with_stress in Hend. rewrite last_snoc in Hend.
    rewrite removelast_last in Htwo.
    rewrite strip_stress_final by done.
    apply strip_stress_plain; [|done]. intros Hin. apply Hlf. set_solver.
  - assert (strip_stress p = p) as E by (by apply strip_stress_plain).
    by rewrite !E.
Qed.

(** C4 (amended): on phoneme tokens that contain no newline and do not end
    with two stress digits, normalization is idempotent, token by token and
    over a whole phoneme sequence. *)
Theorem normalization_idempotent (ps : list str) :
  Forall (λ p, (LF ∉ p) ∧ ends_with_two_stress p = false) ps →
  Forall (λ p, strip_stress (strip_stress p) = strip_stress p) ps ∧
  strip_stress <$> (strip_stress <$> ps) = strip_stress <$> ps.
Proof.
  intros Hps. split.
  - eapply Forall_impl; [exact Hps|]. intros p [? ?]. by apply strip_stress_idem.
  - induction Hps as [|p ps [? ?] _ IH]; [done|].
    cbn [fmap list_fmap]. f_equal; [by apply strip_stress_idem|exact IH].
Qed.

Lemma normalization_idempotent_witness :
  strip_stress <$> (strip_stress <$> [py "IH1"; py "N"; py "T"])
  = strip_stress <$> [py "IH1"; py "N"; py "T"].
Proof.
  apply (normalization_idempotent [py "IH1"; py "N"; py "T"]).
  repeat apply Forall_cons_2; try apply Forall_nil_2;
    (split; [compute_done|reflexivity]).
Defined.

(** ** Whitespace: strip and split *)

Lemma lstrip_spec s : ∃ ws, blank ws ∧ s = ws ++ lstrip s.
Proof.
  induction s as [|c s (ws & Hws & IH)]; [exists []; split; [constructor|done]|].
  simpl. destruct (isspace c) eqn:Hc.
  - exists (c :: ws). split; [by constructor|]. simpl. by f_equal.
  - exists []. split; [constructor|done].
Qed.

Lemma rstrip_spec s : ∃ ws, blank ws ∧ s = rstrip s ++ ws.
Proof.
  unfold rstrip. destruct (lstrip_spec (reverse s)) as (ws & Hws & E).
  exists (reverse ws). split; [by apply Forall_reverse|].
  rewrite <-reverse_app, <-E. by rewrite reverse_involutive.
Qed.

Lemma split_ws_blank_l tok ws s :
  blank ws → ws ≠ [] → tok ≠ [] → split_ws tok (ws ++ s) = tok :: split_ws [] s.
Proof.
  intros Hws. revert tok. induction Hws as [|c ws Hc Hws IH]; intros tok Hne Htok; [done|].
  simpl. rewrite Hc. destruct tok as [|t tok]; [done|]. f_equal.
  clear IH Hne Htok. induction Hws as [|c' ws' Hc' _ IH']; [done|].
  simpl. by rewrite Hc'.
Qed.

Lemma split_blank_l ws s : blank ws → split (ws ++ s) = split s.
Proof.
  unfold split. induction 1 as [|c ws Hc _ IH]; [done|]. simpl. by rewrite Hc.
Qed.

Lemma split_ws_blank tok ws :
  blank ws → split_ws tok ws = match tok with [] => [] | _ => [tok] end.
Proof.
  intros Hws. destruct tok as [|t tok].
  - induction Hws as [|c ws Hc _ IH]; [done|]. simpl. by rewrite Hc.
  - destruct ws as [|w ws]; [done|].
    rewrite <-(app_nil_r (w :: ws)). by rewrite split_ws_blank_l.
Qed.

Lemma split_ws_blank_r tok s ws :
  blank ws → split_ws tok (s ++ ws) = split_ws tok s.
Proof.
  intros Hws. revert tok. induction s as [|c s IH]; intros tok.
  - rewrite app_nil_l. by rewrite split_ws_blank.
  - simpl. destruct (isspace c), tok; by rewrite ?IH.
Qed.

Lemma split_strip s : split (strip s) = split s.
Proof.
  unfold strip.
  destruct (lstrip_spec s) as (ws1 & H1 & E1).
  destruct (rstrip_spec (lstrip s)) as (ws2 & H2 & E2).
  rewrite E1 at 2. rewrite split_blank_l by done.
  rewrite E2 at 2. unfold split. by rewrite split_ws_blank_r.
Qed.

(** Every token of [s.split()] is non-empty and free of whitespace. *)
Lemma split_ws_tokens tok s :
  solid tok → Forall (λ t, t ≠ [] ∧ solid t) (split_ws tok s).
Proof.
  revert tok. induction s as [|c s IH]; intros tok Htok; simpl.
  - destruct tok; [constructor|]. apply Forall_cons_2; [done|constructor].
  - destruct (isspace c) eqn:Hc.
    + destruct tok; [by apply IH|].
      apply Forall_cons_2; [done|]. apply IH. constructor.
    + apply IH. apply Forall_app. split; [done|].
      apply Forall_cons_2; [done|constructor].
Qed.

Lemma split_tokens s : Forall (λ t, t ≠ [] ∧ solid t) (split s).
Proof. apply split_ws_tokens. constructor. Qed.

(** ** Truncation at the first '#' *)

Lemma head_split_on c cur s : head (split_on c cur s) = Some (cur ++ before c s).
Proof.
  revert cur. induction s as [|x s IH]; intros cur; simpl.
  - by rewrite app_nil_r.
  - destruct (chr_eqb x c); simpl; [by rewrite app_nil_r|].
    by rewrite IH, <-(assoc_L (++)).
Qed.

Lemma before_absent c s : contains c s = false → before c s = s.
Proof.
  unfold contains. induction s as [|x s IH]; [done|]. simpl.
  destruct (chr_eqb c x) eqn:E; [done|]. simpl. intros H.
  destruct (chr_eqb x c) eqn:E'.
  - apply chr_eqb_eq in E' as ->. by rewrite (proj2 (chr_eqb_eq c c)) in E.
  - f_equal. by apply IH.
Qed.

Lemma startswith_prefix p s : startswith p s = true ↔ p `prefix_of` s.
Proof.
  revert s. induction p as [|x p IH]; intros s; simpl.
  - split; [intros _; apply prefix_nil|done].
  - destruct s as [|c s].
    + split; [done|]. intros [k Hk]. done.
    + rewrite andb_true_iff, chr_eqb_eq, IH. split.
      * intros [-> Hp]. by apply prefix_cons.
      * intros [k Hk]. simplify_eq/=. split; [done|]. by exists k.
Qed.

(** ** The pattern of the variant marker *)

Lemma close_match s :
  Re.match_len close_re s =
    match s with
    | c :: t => if chr_eqb c ")" && Re.at_end t then Some 1 else None
    | [] => None
    end.
Proof.
  destruct s as [|c t]; [done|]. unfold close_re. cbn [Re.match_len Re.atom_ok].
  destruct (chr_eqb c ")"), (Re.at_end t); reflexivity.
Qed.

Lemma at_end_inv t : Re.at_end t = true → t = [] ∨ t = [LF].
Proof.
  destruct t as [|c [|]]; simpl; intros H; try done; [by left|].
  apply chr_eqb_eq in H as ->. by right.
Qed.

Lemma digits_plus_inv s n :
  Re.match_plus Re.Digit (Re.match_len close_re) s = Some n →
  ∃ ds t, ds ≠ [] ∧ digits ds ∧ Re.at_end t = true ∧ s = ds ++ ")"%char :: t.
Proof.
  revert n. induction s as [|c s IH]; intros n; [done|].
  cbn [Re.match_plus Re.atom_ok]. destruct (isdigit c) eqn:Hc; [|done].
  destruct (Re.match_plus Re.Digit (Re.match_len close_re) s) as [m|] eqn:E.
  - intros _. destruct (IH m eq_refl) as (ds & t & Hne & Hds & Ht & ->).
    exists (c :: ds), t. split_and!; [done|by constructor|done|done].
  - rewrite close_match. destruct s as [|x t]; [done|].
    destruct (chr_eqb x ")") eqn:Hx; [|done].
    destruct (Re.at_end t) eqn:Ht; [|done]. intros _.
    apply chr_eqb_eq in Hx as ->.
    exists [c], t. split_and!; [done|by repeat constructor|done|done].
Qed.

Lemma digits_plus ds :
  ds ≠ [] → digits ds →
  Re.match_plus Re.Digit (Re.match_len close_re) (ds ++ [")"%char])
  = Some (length ds + 1).
Proof.
  intros Hne Hds. induction Hds as [|c ds Hc Hds IH]; [done|].
  cbn [app Re.match_plus Re.atom_ok]. rewrite Hc.
  destruct ds as [|d ds]; [reflexivity|].
  rewrite IH by done. reflexivity.
Qed.

Lemma variant_match_inv s n :
  Re.match_len variant_re s = Some n →
  ∃ ds t, ds ≠ [] ∧ digits ds ∧ Re.at_end t = true
          ∧ s = "("%char :: ds ++ ")"%char :: t.
Proof.
  destruct s as [|c s]; [done|]. unfold variant_re.
  cbn [Re.match_len Re.atom_ok]. destruct (chr_eqb c "(") eqn:Hc; [|done].
  apply chr_eqb_eq in Hc as ->. fold close_re.
  destruct (Re.match_plus _ _ s) as [m|] eqn:E; [|done]. intros _.
  apply digits_plus_inv in E as (ds & t & ? & ? & ? & ->). by exists ds, t.
Qed.

Lemma variant_match ds :
  ds ≠ [] → digits ds →
  Re.match_len variant_re ("("%char :: ds ++ [")"%char]) = Some (length ds + 2).
Proof.
  intros Hne Hds. unfold variant_re. cbn [Re.match_len Re.atom_ok].
  fold close_re. rewrite digits_plus by done. simpl. f_equal. lia.
Qed.

(** ** The base word of a token *)

Lemma sub_variant_marked w ds :
  ds ≠ [] → digits ds →
  Re.sub_empty variant_re (w ++ py "(" ++ ds ++ py ")") = w.
Proof.
  intros Hne Hds. unfold Re.sub_empty. rewrite sub_scan_keep.
  - rewrite (sub_scan_match _ _ (length ds + 2)); [by rewrite app_nil_r| | |done].
    + by apply variant_match.
    + simpl. rewrite length_app. simpl. lia.
  - intros u Hu _.
    destruct (Re.match_len variant_re (u ++ py "(" ++ ds ++ py ")")) eqn:E; [|done].
    exfalso. apply variant_match_inv in E as (ds' & t & _ & Hds' & Ht & E).
    change (py "(" ++ ds ++ py ")") with (("("%char :: ds) ++ [")"%char]) in E.
    rewrite (assoc_L (++)) in E.
    apply at_end_inv in Ht as [-> | ->].
    + change ("("%char :: ds' ++ [")"%char]) with (("("%char :: ds') ++ [")"%char]) in E.
      apply app_inj_tail in E as [E _].
      destruct u as [|x u]; [done|]. simplify_eq/=.
      apply Forall_app in Hds' as [_ Hds']. by inv Hds'.
    + assert ("("%char :: ds' ++ [")"%char; LF]
              = ("("%char :: ds' ++ [")"%char]) ++ [LF]) as E'
        by (simpl; by rewrite <-(assoc_L (++))).
      rewrite E' in E. by apply app_inj_tail in E as [_ ?].
Qed.

Lemma sub_variant_plain tok :
  LF ∉ tok → (∀ w, ¬ has_variant tok w) → Re.sub_empty variant_re tok = tok.
Proof.
  intros Hlf Hno. unfold Re.sub_empty.
  rewrite <-(app_nil_r tok) at 1. rewrite sub_scan_keep; [by rewrite app_nil_r|].
  intros u Hu [q ->]. rewrite app_nil_r.
  destruct (Re.match_len variant_re u) eqn:E; [|done].
  exfalso. apply variant_match_inv in E as (ds & t & Hne & Hds & Ht & ->).
  apply at_end_inv in Ht as [-> | ->].
  - apply (Hno q). exists ds. by split_and!.
  - apply Hlf. set_solver.
Qed.

Lemma last_cons_snoc {A} (x : A) l y : last (x :: l ++ [y]) = Some y.
Proof. change (x :: l ++ [y]) with ((x :: l) ++ [y]). apply last_snoc. Qed.

Lemma last_cons_snoc2 {A} (x : A) l y z : last (x :: l ++ [y; z]) = Some z.
Proof.
  replace (x :: l ++ [y; z]) with ((x :: l ++ [y]) ++ [z]); [apply last_snoc|].
  simpl. by rewrite <-(assoc_L (++)).
Qed.

Lemma has_variant_dec tok : (∃ w, has_variant tok w) ∨ (∀ w, ¬ has_variant tok w).
Proof.
  induction tok as [|c tok IH].
  - right. intros w (ds & _ & _ & E). destruct w; discriminate E.
  - destruct IH as [(w & ds & Hne & Hds & ->)|Hno].
    { left. exists (c :: w), ds. by split_and!. }
    destruct (Re.match_len variant_re (c :: tok)) as [n|] eqn:E.
    + apply variant_match_inv in E as (ds & t & Hne & Hds & Ht & E).
      apply at_end_inv in Ht as [-> | ->].
      * left. exists [], ds. by split_and!.
      * right. intros w (ds' & Hne' & Hds' & E'). destruct w as [|x w].
        -- rewrite E in E'. apply (f_equal last) in E'. revert E'.
           change ([] ++ py "(" ++ ds' ++ py ")") with ("("%char :: ds' ++ [")"%char]).
           by rewrite last_cons_snoc, last_cons_snoc2.
        -- apply (Hno w). exists ds'. simplify_eq/=. by split_and!.
    + right. intros w (ds' & Hne' & Hds' & E'). destruct w as [|x w].
      * rewrite E' in E.
        change ([] ++ py "(" ++ ds' ++ py ")") with ("("%char :: ds' ++ [")"%char]) in E.
        by rewrite variant_match in E.
      * apply (Hno w). exists ds'. simplify_eq/=. by split_and!.
Qed.

Lemma sub_variant_base tok :
  LF ∉ tok → base_word_of tok (Re.sub_empty variant_re tok).
Proof.
  intros Hlf.
  destruct (has_variant_dec tok) as [(w & Hw)|Hno].
  - left. destruct Hw as (ds & Hne & Hds & ->).
    rewrite sub_variant_marked by done. exists ds. by split_and!.
  - right. split; [done|]. by apply sub_variant_plain.
Qed.

(** The base word of a token is unique. *)
Lemma has_variant_unique tok w1 w2 :
  has_variant tok w1 → has_variant tok w2 → w1 = w2.
Proof.
  intros (ds1 & _ & H1 & ->) (ds2 & _ & H2 & E).
  change (py "(" ++ ds1 ++ py ")") with (("("%char :: ds1) ++ [")"%char]) in E.
  change (py "(" ++ ds2 ++ py ")") with (("("%char :: ds2) ++ [")"%char]) in E.
  rewrite !(assoc_L (++)) in E. apply app_inj_tail in E as [E _].
  revert w2 E. induction w1 as [|x w1 IH]; intros [|y w2] E; simplify_eq/=.
  - done.
  - apply Forall_app in H1 as [_ H1]. by inv H1.
  - apply Forall_app in H2 as [_ H2]. by inv H2.
  - f_equal. by apply IH.
Qed.

Lemma base_word_of_unique tok b1 b2 :
  base_word_of tok b1 → base_word_of tok b2 → b1 = b2.
Proof.
  intros [H1|[H1 ->]] [H2|[H2 ->]].
  - by eapply has_variant_unique.
  - by destruct (H2 b1).
  - by destruct (H1 b2).
  - done.
Qed.

(** ** C5: skipped lines and parsed entries *)

Lemma solid_no_newline tok : solid tok → LF ∉ tok.
Proof.
  intros Htok Hin. eapply Forall_forall in Htok; [|exact Hin]. discriminate Htok.
Qed.

Lemma parse_parts line :
  split (if contains "#" (strip line)
         then strip (default [] (head (split_on "#" [] (strip line))))
         else strip line)
  = tokens_of line.
Proof.
  unfold tokens_of. destruct (contains "#" (strip line)) eqn:E.
  - by rewrite head_split_on, split_strip.
  - by rewrite before_absent.
Qed.

(** C5: [parse_cmudict_line] returns [None] exactly when the trimmed line is
    empty, or starts with ';;;', or has fewer than two tokens once it is cut
    at the first '#' and split on whitespace; otherwise it returns the first
    token without its trailing parenthesized run of digits, paired with the
    remaining tokens. *)
Theorem parse_cmudict_line_spec (line : str) :
  (parse_cmudict_line line = None ∧ skipped line) ∨
  (¬ skipped line ∧
   ∃ tok rest base,
     tokens_of line = tok :: rest ∧ base_word_of tok base ∧
     parse_cmudict_line line = Some (base, rest)).
Proof.
  unfold parse_cmudict_line, skipped. cbv zeta. rewrite parse_parts.
  case_bool_decide as Hempty; [left; by split; [|left]|].
  destruct (startswith (py ";;;") (strip line)) eqn:Hc.
  { left. split; [done|]. right. left. by apply startswith_prefix. }
  cbn [orb].
  destruct (length (tokens_of line) <? 2) eqn:Hlen.
  { left. split; [done|]. right. right. by apply Nat.ltb_lt. }
  right. apply Nat.ltb_ge in Hlen. split.
  - intros [?|[Hp|?]]; [done| |lia].
    apply startswith_prefix in Hp. congruence.
  - pose proof (split_tokens (before "#" (strip line))) as Htoks.
    fold (tokens_of line) in Htoks.
    destruct (tokens_of line) as [|tok rest]; [simpl in Hlen; lia|].
    exists tok, rest, (Re.sub_empty variant_re tok). split_and!; [done| |done].
    apply sub_variant_base, solid_no_newline.
    by apply Forall_cons in Htoks as [[_ ?] _].
Qed.

(** ** The reading loop *)

Lemma elem_of_distinct x l : x ∈ distinct l ↔ x ∈ l.
Proof.
  induction l as [|a l IH]; [done|]. simpl.
  rewrite !elem_of_cons, list_elem_of_filter, IH.
  destruct (decide (x = a)); intuition.
Qed.

Lemma NoDup_distinct l : NoDup (distinct l).
Proof.
  induction l as [|a l IH]; simpl; [constructor|].
  constructor; [|by apply NoDup_filter].
  rewrite list_elem_of_filter. intros [Hne _]. by apply Hne.
Qed.

Lemma distinct_snoc l x :
  distinct (l ++ [x]) = if decide (x ∈ l) then distinct l else distinct l ++ [x].
Proof.
  induction l as [|a l IH]; [done|].
  cbn [app distinct]. rewrite IH.
  destruct (decide (x ∈ l)) as [Hin|Hin].
  - rewrite decide_True; [done|]. by right.
  - rewrite filter_app, filter_cons, filter_nil.
    destruct (decide (x = a)) as [->|Hne].
    + rewrite decide_False by (intros Hne; by apply Hne).
      rewrite decide_True by left. by rewrite app_nil_r.
    + rewrite decide_True by done.
      rewrite decide_False; [done|]. rewrite elem_of_cons. intros [?|?]; done.
Qed.

Lemma accumulate_step d line :
  accumulate d line =
    match entry_of line with
    | Some (w, p) =>
        if decide (p ∈ default [] (d !! w)) then d
        else <[w := default [] (d !! w) ++ [p]]> d
    | None => d
    end.
Proof.
  unfold accumulate, entry_of.
  destruct (parse_cmudict_line line) as [[w ps]|]; [|done].
  unfold getitem, append_item, getitem.
  destruct (d !! w) as [l|] eqn:E; simpl.
  - case_bool_decide; [by rewrite decide_True|].
    rewrite decide_False by done. by rewrite E.
  - rewrite lookup_insert_eq. apply insert_insert_eq.
Qed.

Lemma heard_snoc w infile line :
  heard w (infile ++ [line]) =
    heard w infile ++
    match entry_of line with
    | Some (w', p) => if decide (w' = w) then [p] else []
    | None => []
    end.
Proof.
  unfold heard. rewrite omap_app. f_equal. simpl.
  destruct (entry_of line) as [[w' p]|]; [|done]. by destruct (decide (w' = w)).
Qed.

(** The dictionary holds, for every word, the distinct pronunciations read
    for it in first-seen order, and holds no word without a pronunciation. *)
Lemma dict_of_lookup infile w :
  dict_of infile !! w =
    if decide (heard w infile = []) then None else Some (distinct (heard w infile)).
Proof.
  unfold dict_of. induction infile as [|line infile IH] using rev_ind; [done|].
  rewrite foldl_snoc, accumulate_step, heard_snoc.
  destruct (entry_of line) as [[w' p]|]; [|by rewrite app_nil_r].
  destruct (decide (w' = w)) as [->|Hne].
  - assert (default [] (foldl accumulate ∅ infile !! w) = distinct (heard w infile)) as Hl.
    { rewrite IH. destruct (decide _) as [->|]; done. }
    rewrite Hl, distinct_snoc.
    rewrite (decide_False (P := heard w infile ++ [p] = []));
      [|by destruct (heard w infile)].
    destruct (decide (p ∈ distinct (heard w infile))) as [Hin|Hin].
    + rewrite IH. rewrite elem_of_distinct in Hin.
      rewrite (decide_True (P := p ∈ heard w infile)) by done.
      rewrite decide_False; [done|]. intros E. rewrite E in Hin.
      by apply elem_of_nil in Hin.
    + rewrite lookup_insert_eq. rewrite elem_of_distinct in Hin.
      by rewrite (decide_False (P := p ∈ heard w infile)).
  - rewrite app_nil_r. destruct (decide (_ ∈ _)); [done|]. by rewrite lookup_insert_ne.
Qed.

Lemma pronunciations_distinct infile w :
  pronunciations infile w = distinct (heard w infile).
Proof.
  unfold pronunciations. rewrite dict_of_lookup.
  destruct (decide _) as [->|]; done.
Qed.

(** ** The writing loops *)

Lemma write_entries w (g : nat → nat) l outfile n :
  foldl (write_entry w) (outfile, n) (imap (λ i p, (g i, p)) l)
  = (outfile ++ imap (λ i p, line_of (w, g i, p)) l, n + length l).
Proof.
  revert g outfile n. induction l as [|p l IH]; intros g outfile n.
  - simpl. by rewrite app_nil_r, Nat.add_0_r.
  - rewrite !imap_cons. cbn [foldl].
    change ((λ i p0, (g i, p0)) ∘ S) with (λ i (p0 : str), ((g ∘ S) i, p0)).
    unfold write_entry at 2, print. rewrite IH.
    rewrite <-(assoc_L (++)). simpl. f_equal. lia.
Qed.

Lemma write_word_calls infile outfile n w :
  write_word (dict_of infile) (outfile, n) w
  = (outfile ++ (line_of <$> calls_for infile w), n + length (calls_for infile w)).
Proof.
  unfold write_word, enumerate, calls_for. fold (pronunciations infile w).
  rewrite (write_entries w id), fmap_imap, length_imap. done.
Qed.

Lemma write_words_calls infile outfile n ws :
  foldl (write_word (dict_of infile)) (outfile, n) ws
  = (outfile ++ (line_of <$> (ws ≫= calls_for infile)),
     n + length (ws ≫= calls_for infile)).
Proof.
  revert outfile n. induction ws as [|w ws IH]; intros outfile n.
  - simpl. by rewrite app_nil_r, Nat.add_0_r.
  - cbn [foldl]. rewrite write_word_calls, IH, bind_cons.
    rewrite fmap_app, length_app, <-(assoc_L (++)). f_equal. lia.
Qed.

(** The output stream receives the texts of the calls, and the counter
    counts them. *)
Lemma convert_dict_calls infile outfile :
  convert_dict infile outfile
  = (length (calls infile), outfile ++ (line_of <$> calls infile)).
Proof.
  unfold convert_dict. fold (dict_of infile). fold (base_words infile).
  rewrite write_words_calls. done.
Qed.

(** ** The base words *)

Lemma base_words_perm infile : base_words infile ≡ₚ (map_to_list (dict_of infile)).*1.
Proof. apply merge_sort_Permutation. Qed.

Lemma NoDup_base_words infile : NoDup (base_words infile).
Proof. rewrite base_words_perm. apply NoDup_fst_map_to_list. Qed.

Lemma elem_of_base_words infile w :
  w ∈ base_words infile ↔ pronunciations infile w ≠ [].
Proof.
  rewrite base_words_perm, list_elem_of_fmap. unfold pronunciations.
  rewrite dict_of_lookup. split.
  - intros ([w' l] & -> & Hin). apply elem_of_map_to_list in Hin.
    simpl. rewrite dict_of_lookup in Hin.
    destruct (decide (heard w' infile = [])) as [|Hne]; [done|].
    simpl. by destruct (heard w' infile).
  - intros Hne. destruct (decide (heard w infile = [])) as [|Hh]; [done|].
    exists (w, distinct (heard w infile)). split; [done|].
    apply elem_of_map_to_list. rewrite dict_of_lookup. by rewrite decide_False.
Qed.

(** ** The order on strings *)

Lemma str_leb_total a b : str_leb a b = false → str_leb b a = true.
Proof.
  revert b. induction a as [|x a IH]; intros [|y b]; simpl; try done.
  destruct (code x <? code y) eqn:E1; [done|].
  destruct (code y <? code x) eqn:E2; [done|]. apply IH.
Qed.

Global Instance str_le_total : Total str_le.
Proof.
  intros a b. unfold str_le. destruct (str_leb a b) eqn:E; [by left|].
  right. by apply str_leb_total.
Qed.

Global Instance str_le_refl : Reflexive str_le.
Proof.
  intros a. unfold str_le. induction a as [|x a IH]; [done|]. simpl.
  by rewrite Nat.ltb_irrefl.
Qed.

Global Instance str_le_trans : Transitive str_le.
Proof.
  unfold str_le. intros a. induction a as [|x a IH]; intros [|y b] [|z c]; simpl; try done.
  destruct (code x <? code y) eqn:E1.
  - intros _. destruct (code y <? code z) eqn:E2.
    + intros _. apply Nat.ltb_lt in E1, E2.
      rewrite (proj2 (Nat.ltb_lt (code x) (code z))); [done|lia].
    + destruct (code z <? code y) eqn:E3; [done|]. intros _.
      apply Nat.ltb_lt in E1. apply Nat.ltb_ge in E2, E3.
      rewrite (proj2 (Nat.ltb_lt (code x) (code z))); [done|lia].
  - destruct (code y <? code x) eqn:E2; [done|]. intros Hab.
    apply Nat.ltb_ge in E1, E2.
    destruct (code y <? code z) eqn:E3.
    + intros _. apply Nat.ltb_lt in E3.
      rewrite (proj2 (Nat.ltb_lt (code x) (code z))); [done|lia].
    + destruct (code z <? code y) eqn:E4; [done|]. intros Hbc.
      apply Nat.ltb_ge in E3, E4.
      rewrite (proj2 (Nat.ltb_ge (code x) (code z))) by lia.
      rewrite (proj2 (Nat.ltb_ge (code z) (code x))) by lia.
      by apply (IH b c).
Qed.

Lemma code_inj x y : code x = code y → x = y.
Proof.
  unfold code. intros E. rewrite <-(ascii_nat_embedding x), <-(ascii_nat_embedding y).
  by rewrite E.
Qed.

Global Instance str_le_antisym : AntiSymm (=) str_le.
Proof.
  unfold str_le. intros a. induction a as [|x a IH]; intros [|y b]; simpl; try done.
  destruct (code x <? code y) eqn:E1.
  - apply Nat.ltb_lt in E1. rewrite (proj2 (Nat.ltb_ge (code y) (code x))) by lia.
    done.
  - destruct (code y <? code x) eqn:E2; [done|].
    apply Nat.ltb_ge in E1, E2. intros Hab Hba.
    assert (x = y) as -> by (apply code_inj; lia).
    f_equal. by apply IH.
Qed.

(** [str_le] is the lexicographic order on code points: a string is below
    its extensions, and otherwise the first differing characters decide. *)
Lemma str_le_lexicographic a b :
  str_le a b ↔
    a `prefix_of` b ∨
    ∃ pre x y a' b', a = pre ++ x :: a' ∧ b = pre ++ y :: b' ∧ code x < code y.
Proof.
  unfold str_le. revert b. induction a as [|x a IH]; intros b.
  - split; [left; apply prefix_nil|done].
  - destruct b as [|y b]; simpl.
    + split; [done|]. intros [[k Hk]|(pre & ? & ? & ? & ? & _ & E & _)]; [done|].
      by destruct pre.
    + destruct (code x <? code y) eqn:E1.
      { apply Nat.ltb_lt in E1. split; [|done]. intros _. right.
        by exists [], x, y, a, b. }
      destruct (code y <? code x) eqn:E2.
      { apply Nat.ltb_lt in E2. split; [done|].
        intros [[k Hk]|(pre & x' & y' & a' & b' & Ea & Eb & Hlt)].
        - simplify_eq/=. lia.
        - destruct pre; simplify_eq/=; lia. }
      apply Nat.ltb_ge in E1, E2.
      assert (x = y) as -> by (apply code_inj; lia).
      rewrite IH. split.
      * intros [Hp|(pre & x' & y' & a' & b' & -> & -> & Hlt)].
        -- left. by apply prefix_cons.
        -- right. by exists (y :: pre), x', y', a', b'.
      * intros [[k Hk]|(pre & x' & y' & a' & b' & Ea & Eb & Hlt)].
        -- left. exists k. by simplify_eq/=.
        -- destruct pre as [|z pre]; simplify_eq/=; [lia|].
           right. by exists pre, x', y', a', b'.
Qed.

Lemma base_words_sorted infile : StronglySorted str_le (base_words infile).
Proof. apply (StronglySorted_merge_sort _). Qed.

(** [sorted] is pinned down by its specification: any ascending arrangement
    of the keys is the list it returns. *)
Lemma sorted_unique (d : gmap str (list str)) l :
  StronglySorted str_le l → l ≡ₚ (map_to_list d).*1 → l = sorted d.
Proof.
  intros Hl Hp. apply (StronglySorted_unique str_le); [done| |].
  - apply (StronglySorted_merge_sort _).
  - rewrite Hp. symmetry. apply merge_sort_Permutation.
Qed.

(** ** The calls of one word *)

Lemma calls_for_word infile w : Forall (λ c, call_word c = w) (calls_for infile w).
Proof.
  apply Forall_forall. intros c Hc. unfold calls_for in Hc.
  apply elem_of_lookup_imap_1 in Hc as (i & p & -> & _). done.
Qed.

Lemma filter_all {A} (P : A → Prop) `{∀ x, Decision (P x)} l :
  Forall P l → filter P l = l.
Proof.
  induction 1 as [|x l Hx _ IH]; [done|]. rewrite filter_cons_True by done.
  by f_equal.
Qed.

Lemma filter_none {A} (P : A → Prop) `{∀ x, Decision (P x)} l :
  Forall (λ x, ¬ P x) l → filter P l = [].
Proof.
  induction 1 as [|x l Hx _ IH]; [done|]. by rewrite filter_cons_False.
Qed.

Lemma filter_calls_bind infile w ws :
  NoDup ws →
  filter (λ c, call_word c = w) (ws ≫= calls_for infile)
  = if decide (w ∈ ws) then calls_for infile w else [].
Proof.
  induction 1 as [|w' ws Hw' Hws IH]; [done|].
  rewrite bind_cons, filter_app, IH. destruct (decide (w' = w)) as [->|Hne].
  - rewrite filter_all by apply calls_for_word.
    rewrite (decide_False (P := w ∈ ws)) by done.
    rewrite decide_True by left. by rewrite app_nil_r.
  - rewrite filter_none.
    + destruct (decide (w ∈ ws)) as [Hin|Hin].
      * rewrite decide_True; [done|]. by right.
      * rewrite decide_False; [done|]. rewrite elem_of_cons. intros [?|?]; by simplify_eq.
    + eapply Forall_impl; [apply calls_for_word|]. simpl. intros c ->. done.
Qed.

Lemma filter_calls infile w :
  filter (λ c, call_word c = w) (calls infile) = calls_for infile w.
Proof.
  unfold calls. rewrite filter_calls_bind by apply NoDup_base_words.
  destruct (decide (w ∈ base_words infile)) as [|Hin]; [done|].
  rewrite elem_of_base_words in Hin. unfold calls_for.
  destruct (pronunciations infile w); [done|]. by destruct Hin.
Qed.

Lemma elem_of_calls infile w i p :
  (w, i, p) ∈ calls infile ↔ pronunciations infile w !! i = Some p.
Proof.
  unfold calls. rewrite list_elem_of_bind. split.
  - intros (w' & Hc & _). unfold calls_for in Hc.
    apply elem_of_lookup_imap_1 in Hc as (i' & p' & E & Hl). by simplify_eq.
  - intros Hl. exists w. split.
    + unfold calls_for. by apply (elem_of_lookup_imap_2 (λ i p, (w, i, p))).
    + apply elem_of_base_words. intros E. by rewrite E in Hl.
Qed.

(** ** C1: variant numbering *)

(** C1: the lines written for a base word with [k] distinct normalized
    pronunciations are the bare word with the first pronunciation, then the
    word suffixed with (2) through (k), the pronunciations being taken in
    the order they were first met in the input. *)
Theorem variant_numbering (infile outfile : list str) (w : str) :
  (convert_dict infile outfile).2 = outfile ++ (line_of <$> calls infile) ∧
  length (filter (λ c, call_word c = w) (calls infile))
    = length (distinct (heard w infile)) ∧
  line_of <$> filter (λ c, call_word c = w) (calls infile) =
    match distinct (heard w infile) with
    | [] => []
    | p :: rest =>
        (w ++ py " " ++ p)
        :: imap (λ j q, w ++ py "(" ++ str_of_nat (j + 2) ++ py ")" ++ py " " ++ q) rest
    end.
Proof.
  rewrite convert_dict_calls, filter_calls. unfold calls_for.
  rewrite pronunciations_distinct, length_imap. split_and!; [done|done|].
  destruct (distinct (heard w infile)) as [|p rest]; [done|].
  rewrite imap_cons. cbn [fmap list_fmap]. f_equal.
  rewrite fmap_imap. apply imap_ext. intros j q _. simpl.
  unfold word_variant. replace (S j + 1) with (j + 2) by lia.
  cbn [Nat.eqb]. by rewrite <-!(assoc_L (++)).
Qed.

(** ** C2: the suffix of the pronunciation at index i *)

(** C2, as stated, fails: the second pronunciation of a word (index 1) is
    written under suffix (2), not (3). *)
Lemma suffix_plus_two_counterexample : ¬ labelled_by 2 [py "a X"; py "a Y"].
Proof.
  intros H. specialize (H []). vm_compute in H. discriminate H.
Qed.

(** C2 (amended): the pronunciation at index 0 of a word's set is written
    under the bare word, and the pronunciation at index i >= 1 under the word
    with the suffix number i + 1; the calls are exactly the pairs of a word
    and an index of its set. *)
Theorem suffix_is_index_plus_one (infile : list str) :
  labelled_by 1 infile ∧
  ∀ w i p, (w, i, p) ∈ calls infile ↔ pronunciations infile w !! i = Some p.
Proof.
  split; [|apply elem_of_calls].
  intros outfile. rewrite convert_dict_calls. simpl. f_equal.
  apply list_fmap_ext. intros _ [[w i] p] _. simpl.
  unfold label, word_variant. destruct i; done.
Qed.

(** ** C6: the pronunciation lists hold no duplicate *)

Lemma dict_of_snoc infile line :
  dict_of (infile ++ [line]) =
    match entry_of line with
    | Some (w, p) =>
        if decide (p ∈ pronunciations infile w) then dict_of infile
        else <[w := pronunciations infile w ++ [p]]> (dict_of infile)
    | None => dict_of infile
    end.
Proof. unfold dict_of. by rewrite foldl_snoc, accumulate_step. Qed.

(** C6: after any number [n] of input lines, no pronunciation list of the
    dictionary holds two equal strings; each list is the distinct
    pronunciations read so far for its word, in first-seen order; and the
    line read next leaves the dictionary unchanged when its pronunciation is
    already in the list of its word, and appends it at the end of that list
    otherwise. *)
Theorem pronunciation_lists_distinct (infile : list str) (n : nat) (line : str) :
  infile !! n = Some line →
  (∀ w, NoDup (pronunciations (take n infile) w)) ∧
  (∀ w, NoDup (pronunciations (take (S n) infile) w)) ∧
  (∀ w, pronunciations (take n infile) w = distinct (heard w (take n infile))) ∧
  dict_of (take (S n) infile) =
    match entry_of line with
    | Some (w, p) =>
        if decide (p ∈ pronunciations (take n infile) w) then dict_of (take n infile)
        else <[w := pronunciations (take n infile) w ++ [p]]> (dict_of (take n infile))
    | None => dict_of (take n infile)
    end.
Proof.
  intros Hline. split_and!.
  - intros w. rewrite pronunciations_distinct. apply NoDup_distinct.
  - intros w. rewrite pronunciations_distinct. apply NoDup_distinct.
  - intros w. apply pronunciations_distinct.
  - rewrite (take_S_r _ _ _ Hline). apply dict_of_snoc.
Qed.

Lemma pronunciation_lists_distinct_witness :
  dict_of (take 2 [py "read R EH1 D"; py "read(2) R EH2 D"])
  = dict_of (take 1 [py "read R EH1 D"; py "read(2) R EH2 D"]).
Proof.
  apply (pronunciation_lists_distinct
           [py "read R EH1 D"; py "read(2) R EH2 D"] 1 (py "read(2) R EH2 D")).
  reflexivity.
Defined.

(** ** C7: the output is sorted by base word *)

Lemma StronglySorted_bind_key (ws : list str) (f : str → list call) :
  (∀ w, Forall (λ c, call_word c = w) (f w)) →
  StronglySorted str_le ws →
  StronglySorted str_le (call_word <$> (ws ≫= f)).
Proof.
  intros Hf. induction 1 as [|w ws Hws IH Hle]; [constructor|].
  rewrite bind_cons, fmap_app. apply StronglySorted_app. split_and!; [|clear Hle|done].
  - intros x1 x2 H1 H2.
    apply list_elem_of_fmap in H1 as (c1 & -> & H1).
    apply list_elem_of_fmap in H2 as (c2 & -> & H2).
    pose proof (Hf w) as Hw. rewrite Forall_forall in Hw. rewrite (Hw _ H1).
    apply list_elem_of_bind in H2 as (w2 & H2 & Hin).
    pose proof (Hf w2) as Hw2. rewrite Forall_forall in Hw2. rewrite (Hw2 _ H2).
    rewrite Forall_forall in Hle. by apply Hle.
  - specialize (Hf w). induction Hf as [|c l Hc Hl IHl]; [constructor|].
    cbn [fmap list_fmap]. constructor; [done|].
    apply Forall_fmap, Forall_forall. intros c' Hc'.
    rewrite Forall_forall in Hl. simpl. rewrite Hc, (Hl _ Hc'). reflexivity.
Qed.

(** C7: the base words of the lines, in the order the lines are written,
    never decrease in code point order. *)
Theorem output_sorted (infile outfile : list str) :
  (convert_dict infile outfile).2 = outfile ++ (line_of <$> calls infile) ∧
  StronglySorted str_le (call_word <$> calls infile).
Proof.
  split; [by rewrite convert_dict_calls|].
  apply StronglySorted_bind_key; [apply calls_for_word|apply base_words_sorted].
Qed.

(** ** C8: the returned count *)

Lemma length_calls_bind infile ws :
  length (ws ≫= calls_for infile)
  = sum_list ((λ w, length (pronunciations infile w)) <$> ws).
Proof.
  induction ws as [|w ws IH]; [done|].
  rewrite bind_cons, length_app, IH. unfold calls_for. by rewrite length_imap.
Qed.

(** C8: the integer returned is the number of lines added to the output
    stream, which is the sum over the base words of the sizes of their
    pronunciation sets. *)
Theorem entries_written_count (infile outfile : list str) :
  outfile `prefix_of` (convert_dict infile outfile).2 ∧
  length (convert_dict infile outfile).2
    = length outfile + (convert_dict infile outfile).1 ∧
  (convert_dict infile outfile).1
    = sum_list ((λ w, length (pronunciations infile w)) <$> base_words infile).
Proof.
  rewrite convert_dict_calls. simpl. split_and!.
  - by apply prefix_app_r.
  - by rewrite length_app, length_fmap.
  - apply length_calls_bind.
Qed.

(** ** C10: determinism *)

(** C10: two runs on the same sequence of input lines return the same count
    and add the same lines, in the same order, to their output streams,
    whatever the streams held before; and the order in which the dictionary
    yields its keys plays no part, since sorting any arrangement of the keys
    gives the list the writing loop goes through. *)
Theorem convert_dict_deterministic (infile1 infile2 outfile1 outfile2 : list str) :
  infile1 = infile2 →
  (convert_dict infile1 outfile1).1 = (convert_dict infile2 outfile2).1 ∧
  drop (length outfile1) (convert_dict infile1 outfile1).2
  = drop (length outfile2) (convert_dict infile2 outfile2).2 ∧
  ∀ keys, keys ≡ₚ (map_to_list (dict_of infile1)).*1 →
          merge_sort str_le keys = base_words infile2.
Proof.
  intros ->. rewrite !convert_dict_calls. cbn [fst snd].
  rewrite !drop_app_length. split_and!; [done|done|].
  intros keys Hkeys. apply sorted_unique.
  - apply (StronglySorted_merge_sort _).
  - by rewrite merge_sort_Permutation.
Qed.

Lemma convert_dict_deterministic_witness :
  (convert_dict [py "read R EH1 D"] []).1
  = (convert_dict [py "read R EH1 D"] [py "old line"]).1.
Proof.
  apply (convert_dict_deterministic
           [py "read R EH1 D"] [py "read R EH1 D"] [] [py "old line"]).
  reflexivity.
Defined.

(** ** C9: a phoneme that is a lone stress digit *)

Lemma join_cons x y l : join (x :: y :: l) = x ++ SP :: join (y :: l).
Proof. reflexivity. Qed.

(** An empty component of a joined list shows as a misplaced space. *)
Lemma join_empty_component (l : list str) :
  [] ∈ l →
  join l = [] ∨ leading_space (join l) ∨ trailing_space (join l)
  ∨ double_space (join l).
Proof.
  induction l as [|x l IH]; [by intros ?%elem_of_nil|].
  intros Hin. destruct l as [|y l].
  - apply list_elem_of_singleton in Hin as <-. by left.
  - rewrite join_cons. apply elem_of_cons in Hin as [<-|Hin].
    { right. left. by eexists. }
    destruct (IH Hin) as [E|[[t E]|[[t E]|(a & b & E)]]]; rewrite E.
    + right. right. left. by exists x.
    + right. right. right. by exists x, t.
    + right. right. left. exists (x ++ SP :: t). by rewrite <-(assoc_L (++)).
    + right. right. right. exists (x ++ SP :: a), b. by rewrite <-(assoc_L (++)).
Qed.

Lemma line_of_spaces (w : str) (i : nat) (p : str) :
  p = [] ∨ leading_space p ∨ trailing_space p ∨ double_space p →
  trailing_space (line_of (w, i, p)) ∨ double_space (line_of (w, i, p)).
Proof.
  unfold line_of. change (py " ") with [SP].
  intros [->|[[t ->]|[[t ->]|(a & b & ->)]]].
  - left. exists (word_variant w i). done.
  - right. exists (word_variant w i), t. done.
  - left. exists (word_variant w i ++ [SP] ++ t). by rewrite <-!(assoc_L (++)).
  - right. exists (word_variant w i ++ [SP] ++ a), b. by rewrite <-!(assoc_L (++)).
Qed.

Lemma elem_of_heard infile w p :
  p ∈ heard w infile ↔ ∃ line, line ∈ infile ∧ entry_of line = Some (w, p).
Proof.
  unfold heard. rewrite list_elem_of_omap. split.
  - intros (line & Hin & E). exists line. split; [done|].
    destruct (entry_of line) as [[w' p']|]; [|done].
    destruct (decide (w' = w)); by simplify_eq.
  - intros (line & Hin & E). exists line. split; [done|].
    rewrite E. by rewrite decide_True.
Qed.

(** C9: a phoneme token that is a lone stress digit normalizes to the empty
    string; an entry with such a token is not rejected: its pronunciation,
    whose space-join then has an empty component (it is empty, or starts or
    ends with a space, or has two spaces in a row), is written, on a line
    that ends with a space or has two spaces in a row. *)
Theorem lone_stress_digit_kept
    (infile outfile : list str) (line w : str) (ps : list str) (d : ascii) :
  line ∈ infile →
  parse_cmudict_line line = Some (w, ps) →
  is_stress d = true →
  [d] ∈ ps →
  strip_stress [d] = [] ∧
  [] ∈ (strip_stress <$> ps) ∧
  (join (strip_stress <$> ps) = []
   ∨ leading_space (join (strip_stress <$> ps))
   ∨ trailing_space (join (strip_stress <$> ps))
   ∨ double_space (join (strip_stress <$> ps))) ∧
  ∃ i,
    (w, i, join (strip_stress <$> ps)) ∈ calls infile ∧
    line_of (w, i, join (strip_stress <$> ps)) ∈ (convert_dict infile outfile).2 ∧
    (trailing_space (line_of (w, i, join (strip_stress <$> ps)))
     ∨ double_space (line_of (w, i, join (strip_stress <$> ps)))).
Proof.
  intros Hline Hparse Hd Hps.
  assert (strip_stress [d] = []) as Hlone by (by apply (strip_stress_final [])).
  assert ([] ∈ (strip_stress <$> ps)) as Hempty.
  { apply list_elem_of_fmap. exists [d]. by split. }
  pose proof (join_empty_component _ Hempty) as Hjoin.
  split_and!; [done..|].
  assert (join (strip_stress <$> ps) ∈ pronunciations infile w) as Hin.
  { rewrite pronunciations_distinct, elem_of_distinct, elem_of_heard.
    exists line. split; [done|]. unfold entry_of. by rewrite Hparse. }
  apply list_elem_of_lookup in Hin as [i Hi]. exists i.
  assert ((w, i, join (strip_stress <$> ps)) ∈ calls infile) as Hcall
    by (by apply elem_of_calls).
  split_and!; [done| |by apply line_of_spaces].
  rewrite convert_dict_calls. cbn [snd]. apply elem_of_app. right.
  apply list_elem_of_fmap. eexists. split; [reflexivity|exact Hcall].
Qed.

Lemma lone_stress_digit_kept_witness :
  strip_stress [("0")%char] = [].
Proof.
  apply (lone_stress_digit_kept [py "a 0 X"] [] (py "a 0 X") (py "a")
           [py "0"; py "X"] "0"%char).
  - compute_done.
  - reflexivity.
  - reflexivity.
  - compute_done.
Defined.


(** * Further properties of the code *)

(** ** Lines that are skipped *)

Lemma entry_of_None line : entry_of line = None ↔ parse_cmudict_line line = None.
Proof.
  unfold entry_of. by destruct (parse_cmudict_line line) as [[w ps]|].
Qed.

Lemma accumulate_skipped d line :
  parse_cmudict_line line = None → accumulate d line = d.
Proof. intros E. unfold accumulate. by rewrite E. Qed.

Lemma foldl_accumulate_filter d infile :
  foldl accumulate d (filter (λ line, is_Some (parse_cmudict_line line)) infile)
  = foldl accumulate d infile.
Proof.
  revert d. induction infile as [|line infile IH]; intros d; [done|].
  destruct (decide (is_Some (parse_cmudict_line line))) as [Hs|Hn].
  - rewrite filter_cons_True by done. simpl. apply IH.
  - rewrite filter_cons_False by done. simpl.
    rewrite accumulate_skipped; [apply IH|].
    by destruct (parse_cmudict_line line); [destruct Hn|].
Qed.

(** X1: the lines that are skipped (blank lines, comments, lines with fewer
    than two tokens) have no effect at all: the count and the output are
    those of the input without them. *)
Theorem skipped_lines_ignored (infile outfile : list str) :
  convert_dict (filter (λ line, is_Some (parse_cmudict_line line)) infile) outfile
  = convert_dict infile outfile.
Proof. unfold convert_dict. by rewrite foldl_accumulate_filter. Qed.

(** ** What is written *)

Lemma call_pair_calls_for infile w :
  call_pair <$> calls_for infile w = (λ p, (w, p)) <$> pronunciations infile w.
Proof.
  unfold calls_for. rewrite fmap_imap.
  change (λ n : nat, call_pair ∘ (λ p : str, (w, n, p)))
    with (λ (_ : nat) (p : str), (w, p)).
  by rewrite (imap_const (λ p : str, (w, p))).
Qed.

Lemma NoDup_pronunciations infile w : NoDup (pronunciations infile w).
Proof. rewrite pronunciations_distinct. apply NoDup_distinct. Qed.

Lemma elem_of_pronunciations infile w p :
  p ∈ pronunciations infile w ↔ (w, p) ∈ entries infile.
Proof.
  rewrite pronunciations_distinct, elem_of_distinct, elem_of_heard.
  unfold entries. by rewrite list_elem_of_omap.
Qed.

Lemma elem_of_call_pairs infile w p :
  (w, p) ∈ call_pair <$> calls infile ↔ (w, p) ∈ entries infile.
Proof.
  rewrite <-elem_of_pronunciations, list_elem_of_fmap. split.
  - intros ([[w' i] p'] & E & Hc). unfold call_pair in E. simplify_eq/=.
    apply elem_of_calls in Hc. apply list_elem_of_lookup. by exists i.
  - intros Hp. apply list_elem_of_lookup in Hp as [i Hi].
    exists (w, i, p). split; [done|]. by apply elem_of_calls.
Qed.

Lemma NoDup_call_pairs_bind infile ws :
  NoDup ws → NoDup (call_pair <$> (ws ≫= calls_for infile)).
Proof.
  induction 1 as [|w ws Hw Hws IH]; [constructor|].
  rewrite bind_cons, fmap_app. apply NoDup_app. split_and!; [| |done].
  - rewrite call_pair_calls_for. apply (NoDup_fmap_2 _), NoDup_pronunciations.
  - intros [w1 p1] H1 H2. rewrite call_pair_calls_for in H1.
    apply list_elem_of_fmap in H1 as (p & E & _). simplify_eq.
    apply list_elem_of_fmap in H2 as (c & E & Hc).
    apply list_elem_of_bind in Hc as (w' & Hc & Hw').
    pose proof (calls_for_word infile w') as Hall.
    rewrite Forall_forall in Hall. specialize (Hall _ Hc).
    unfold call_pair in E. unfold call_word in Hall. simplify_eq/=. done.
Qed.

(** X2: what is written is the set of the entries of the input: a pair of a
    base word and a normalized pronunciation has a line of its own exactly
    when some input line has this base word and this pronunciation, and no
    pair is written twice. *)
Theorem written_pairs (infile outfile : list str) :
  (convert_dict infile outfile).2 = outfile ++ (line_of <$> calls infile) ∧
  NoDup (call_pair <$> calls infile) ∧
  ∀ w p, (w, p) ∈ call_pair <$> calls infile ↔
         ∃ line phonemes,
           line ∈ infile ∧ parse_cmudict_line line = Some (w, phonemes) ∧
           p = join (strip_stress <$> phonemes).
Proof.
  split_and!.
  - by rewrite convert_dict_calls.
  - apply NoDup_call_pairs_bind, NoDup_base_words.
  - intros w p. rewrite elem_of_call_pairs. unfold entries.
    rewrite list_elem_of_omap. unfold entry_of. split.
    + intros (line & Hin & E).
      destruct (parse_cmudict_line line) as [[w' ps]|] eqn:Hp; [|done].
      simplify_eq. by exists line, ps.
    + intros (line & ps & Hin & Hp & ->). exists line. by rewrite Hp.
Qed.

(** ** The count *)

Lemma entries_cons line infile :
  entries (line :: infile) =
    match parse_cmudict_line line with
    | Some (w, ps) => (w, join (strip_stress <$> ps)) :: entries infile
    | None => entries infile
    end.
Proof.
  unfold entries. change (omap entry_of (line :: infile))
    with (match entry_of line with
          | Some y => y :: omap entry_of infile
          | None => omap entry_of infile
          end).
  unfold entry_of at 1. by destruct (parse_cmudict_line line) as [[w ps]|].
Qed.

Lemma length_entries infile :
  length (entries infile)
  = length (filter (λ line, is_Some (parse_cmudict_line line)) infile).
Proof.
  induction infile as [|line infile IH]; [done|]. rewrite entries_cons.
  destruct (parse_cmudict_line line) as [[w ps]|] eqn:E.
  - rewrite filter_cons_True by (by rewrite E). simpl. by rewrite IH.
  - rewrite filter_cons_False by (rewrite E; apply is_Some_None). done.
Qed.

Lemma count_distinct_entries infile :
  length (calls infile) = length (remove_dups (entries infile)).
Proof.
  rewrite <-(length_fmap call_pair). apply Permutation_length, NoDup_Permutation.
  - apply NoDup_call_pairs_bind, NoDup_base_words.
  - apply NoDup_remove_dups.
  - intros [w p]. by rewrite elem_of_call_pairs, elem_of_remove_dups.
Qed.

(** X3: the returned count is the number of distinct pairs of a base word
    and a normalized pronunciation among the entries of the input; hence it
    is at most the number of lines that are not skipped, and at most the
    number of lines. *)
Theorem count_is_distinct_entries (infile outfile : list str) :
  (convert_dict infile outfile).1 = length (remove_dups (entries infile)) ∧
  (convert_dict infile outfile).1
    ≤ length (filter (λ line, is_Some (parse_cmudict_line line)) infile) ∧
  (convert_dict infile outfile).1 ≤ length infile.
Proof.
  rewrite convert_dict_calls. cbn [fst]. rewrite count_distinct_entries.
  assert (length (remove_dups (entries infile)) ≤ length (entries infile)) as H1.
  { apply submseteq_length, NoDup_submseteq; [apply NoDup_remove_dups|].
    intros x. by rewrite elem_of_remove_dups. }
  pose proof (length_entries infile) as H2.
  pose proof (length_filter (λ line, is_Some (parse_cmudict_line line)) infile).
  split_and!; [done|lia|lia].
Qed.

(** X4: nothing is written, and 0 is returned, exactly when every line of
    the input is skipped. *)
Theorem nothing_written_iff_all_skipped (infile outfile : list str) :
  convert_dict infile outfile = (0, outfile)
  ↔ Forall (λ line, parse_cmudict_line line = None) infile.
Proof.
  split.
  - intros E. apply Forall_forall. intros line Hin.
    destruct (parse_cmudict_line line) as [[w ps]|] eqn:Hp; [|done]. exfalso.
    assert ((w, join (strip_stress <$> ps)) ∈ call_pair <$> calls infile) as Hc.
    { apply elem_of_call_pairs. unfold entries. apply list_elem_of_omap.
      exists line. split; [done|]. unfold entry_of. by rewrite Hp. }
    rewrite convert_dict_calls in E. injection E as E _.
    apply nil_length_inv in E. rewrite E in Hc. by apply elem_of_nil in Hc.
  - intros Hall. unfold convert_dict.
    assert (foldl accumulate ∅ infile = ∅) as ->.
    { generalize (∅ : gmap str (list str)).
      induction Hall as [|line infile Hp _ IH]; intros d; [done|].
      simpl. by rewrite accumulate_skipped. }
    reflexivity.
Qed.

(** ** Inputs with the same output *)

Lemma heard_app w in1 in2 : heard w (in1 ++ in2) = heard w in1 ++ heard w in2.
Proof. unfold heard. apply omap_app. Qed.

Lemma heard_cons w line infile :
  heard w (line :: infile) =
    match entry_of line with
    | Some (w', p) => if decide (w' = w) then p :: heard w infile else heard w infile
    | None => heard w infile
    end.
Proof.
  change (line :: infile) with ([line] ++ infile). rewrite heard_app.
  unfold heard at 1. simpl.
  destruct (entry_of line) as [[w' p]|]; [|done]. by destruct (decide (w' = w)).
Qed.

Lemma distinct_nil_inv l : distinct l = [] → l = [].
Proof. by destruct l. Qed.

(** The output is a function of the distinct pronunciations of each word. *)
Lemma convert_dict_ext in1 in2 outfile :
  (∀ w, distinct (heard w in1) = distinct (heard w in2)) →
  convert_dict in1 outfile = convert_dict in2 outfile.
Proof.
  intros H. unfold convert_dict. fold (dict_of in1). fold (dict_of in2).
  assert (dict_of in1 = dict_of in2) as ->; [|done].
  apply map_eq. intros w. rewrite !dict_of_lookup, <-(H w).
  destruct (decide (heard w in1 = [])) as [E1|N1],
           (decide (heard w in2 = [])) as [E2|N2]; try done.
  - destruct N2. apply distinct_nil_inv. rewrite <-H, E1. done.
  - destruct N1. apply distinct_nil_inv. rewrite H, E2. done.
Qed.

Lemma heard_entries w infile :
  heard w infile
  = omap (λ e : str * str, if decide (e.1 = w) then Some e.2 else None) (entries infile).
Proof.
  induction infile as [|line infile IH]; [done|].
  rewrite heard_cons, entries_cons. unfold entry_of.
  destruct (parse_cmudict_line line) as [[w' ps]|]; [|done].
  change (omap ?f ((w', ?p) :: entries infile))
    with (match f (w', p) with
          | Some y => y :: omap f (entries infile)
          | None => omap f (entries infile)
          end).
  cbn [fst snd]. rewrite <-IH. by destruct (decide (w' = w)).
Qed.

(** X5: the output depends on the input only through its entries: two inputs
    whose lines give the same sequence of base words and normalized
    pronunciations (whatever their stress digits, variant numbers, comments,
    skipped lines and spacing) give the same count and the same lines. *)
Theorem same_entries_same_output (in1 in2 outfile : list str) :
  entries in1 = entries in2 →
  convert_dict in1 outfile = convert_dict in2 outfile.
Proof.
  intros E. apply convert_dict_ext. intros w. by rewrite !heard_entries, E.
Qed.

Lemma same_entries_same_output_witness :
  convert_dict [py ";;; header"; py "read(7)  R EH2 D # verb"] []
  = convert_dict [py "read R EH D"] [].
Proof.
  apply (same_entries_same_output
           [py ";;; header"; py "read(7)  R EH2 D # verb"] [py "read R EH D"] []).
  reflexivity.
Defined.

Lemma distinct_filter (P : str → Prop) `{∀ x, Decision (P x)} l :
  distinct (filter P l) = filter P (distinct l).
Proof.
  induction l as [|a l IH]; [done|]. destruct (decide (P a)) as [Ha|Ha].
  - rewrite filter_cons_True by done. cbn [distinct].
    rewrite filter_cons_True by done. f_equal. rewrite IH.
    rewrite !list_filter_filter. apply list_filter_iff. tauto.
  - rewrite filter_cons_False by done. cbn [distinct].
    rewrite filter_cons_False by done. rewrite IH.
    rewrite list_filter_filter. apply list_filter_iff.
    intros x. split; [|tauto]. intros Hx. split; [done|]. by intros ->.
Qed.

(** A later occurrence of an element does not change the distinct
    elements. *)
Lemma distinct_repeat l1 l2 x :
  x ∈ l1 → distinct (l1 ++ x :: l2) = distinct (l1 ++ l2).
Proof.
  induction l1 as [|y l1 IH]; [by intros ?%elem_of_nil|].
  intros Hin. cbn [app distinct]. f_equal.
  destruct (decide (x = y)) as [->|Hne].
  - rewrite <-!distinct_filter. f_equal.
    rewrite !filter_app. f_equal. by rewrite filter_cons_False by (intros Hy; by apply Hy).
  - rewrite IH; [done|]. apply elem_of_cons in Hin as [?|?]; done.
Qed.

(** X6: a line whose base word and normalized pronunciation have already
    been read on an earlier line can be removed from the input without any
    change to the count and the output. *)
Theorem repeated_entry_ignored (a b c outfile : list str) (line line' : str)
    (e : str * str) :
  entry_of line = Some e →
  entry_of line' = Some e →
  convert_dict (a ++ line :: b ++ line' :: c) outfile
  = convert_dict (a ++ line :: b ++ c) outfile.
Proof.
  intros E E'. apply convert_dict_ext. intros w.
  rewrite !heard_app, !heard_cons, !heard_app, heard_cons, E, E'.
  destruct e as [w' p]. destruct (decide (w' = w)) as [->|]; [|done].
  assert (∀ l, heard w a ++ p :: heard w b ++ l = (heard w a ++ p :: heard w b) ++ l)
    as Hassoc by (intros l; by rewrite <-(assoc_L (++))).
  rewrite !Hassoc. apply distinct_repeat. set_solver.
Qed.

Lemma repeated_entry_ignored_witness :
  convert_dict ([] ++ py "read R EH1 D" :: [py "a AH0"] ++ py "read(2) R EH2 D" :: []) []
  = convert_dict ([] ++ py "read R EH1 D" :: [py "a AH0"] ++ []) [].
Proof.
  apply (repeated_entry_ignored [] [py "a AH0"] [] [] (py "read R EH1 D")
           (py "read(2) R EH2 D") (py "read", py "R EH D")); reflexivity.
Defined.

(** X7: two neighbouring lines with different base words can be exchanged
    without any change to the count and the output: only the order of the
    lines of one word matters. *)
Theorem different_words_commute (a b outfile : list str)
    (line1 line2 w1 w2 p1 p2 : str) :
  entry_of line1 = Some (w1, p1) →
  entry_of line2 = Some (w2, p2) →
  w1 ≠ w2 →
  convert_dict (a ++ line1 :: line2 :: b) outfile
  = convert_dict (a ++ line2 :: line1 :: b) outfile.
Proof.
  intros E1 E2 Hne. apply convert_dict_ext. intros w. f_equal.
  rewrite !heard_app. f_equal. rewrite !heard_cons, E1, E2.
  destruct (decide (w1 = w)), (decide (w2 = w)); congruence.
Qed.

Lemma different_words_commute_witness :
  convert_dict ([] ++ py "b B" :: py "a AH0" :: [py "b(2) D"]) []
  = convert_dict ([] ++ py "a AH0" :: py "b B" :: [py "b(2) D"]) [].
Proof.
  apply (different_words_commute [] [py "b(2) D"] [] (py "b B") (py "a AH0")
           (py "b") (py "a") (py "B") (py "AH")); [reflexivity|reflexivity|].
  compute_done.
Defined.

(** ** Input that grows *)

Lemma distinct_app_prefix l l' : distinct l `prefix_of` distinct (l ++ l').
Proof.
  induction l' as [|x l' IH] using rev_ind; [by rewrite app_nil_r|].
  rewrite (assoc_L (++)), distinct_snoc.
  destruct (decide (x ∈ l ++ l')); [done|]. by apply prefix_app_r.
Qed.

(** X8: lines added at the end of the input never renumber what was there:
    the pronunciation list of every word only grows at its end, so every
    call made for the shorter input (same word, same index, same
    pronunciation, hence the same text) is made for the longer one. *)
Theorem appended_input_keeps_numbering
    (infile more outfile : list str) (w : str) (i : nat) (p : str) :
  (w, i, p) ∈ calls infile →
  pronunciations infile w `prefix_of` pronunciations (infile ++ more) w ∧
  (w, i, p) ∈ calls (infile ++ more) ∧
  line_of (w, i, p) ∈ (convert_dict (infile ++ more) outfile).2.
Proof.
  intros Hc.
  assert (pronunciations infile w `prefix_of` pronunciations (infile ++ more) w)
    as Hpre.
  { rewrite !pronunciations_distinct, heard_app. apply distinct_app_prefix. }
  assert ((w, i, p) ∈ calls (infile ++ more)) as Hc'.
  { apply elem_of_calls. apply elem_of_calls in Hc.
    destruct Hpre as [k ->]. by apply lookup_app_l_Some. }
  split_and!; [done|done|].
  rewrite convert_dict_calls. cbn [snd]. apply elem_of_app. right.
  apply list_elem_of_fmap. by exists (w, i, p).
Qed.

Lemma appended_input_keeps_numbering_witness :
  (py "b", 1, py "D") ∈ calls ([py "b B"; py "b D"] ++ [py "a AH0"; py "b E"]).
Proof.
  apply (appended_input_keeps_numbering
           [py "b B"; py "b D"] [py "a AH0"; py "b E"] [] (py "b") 1 (py "D")).
  compute_done.
Defined.

(** ** The words that are written *)

Lemma strict_of_NoDup (l : list str) :
  StronglySorted str_le l → NoDup l →
  StronglySorted (λ a b, str_le a b ∧ a ≠ b) l.
Proof.
  induction 1 as [|x l Hl IH Hx]; intros Hnd; [constructor|].
  apply NoDup_cons in Hnd as [Hnin Hnd]. constructor; [by apply IH|].
  rewrite Forall_forall in Hx |- *. intros y Hy. split; [by apply Hx|].
  by intros ->.
Qed.

(** X9: the words the writing loop goes through are exactly the base words
    of the entries of the input, in strictly ascending code point order
    (each once); and each of them gets a line under its bare form. *)
Theorem base_words_of_entries (infile : list str) :
  StronglySorted (λ a b, str_le a b ∧ a ≠ b) (base_words infile) ∧
  (∀ w, w ∈ base_words infile ↔ ∃ p, (w, p) ∈ entries infile) ∧
  (∀ w, w ∈ base_words infile ↔ ∃ p, (w, 0, p) ∈ calls infile).
Proof.
  split_and!.
  - apply strict_of_NoDup; [apply base_words_sorted|apply NoDup_base_words].
  - intros w. rewrite elem_of_base_words. split.
    + intros Hne. destruct (pronunciations infile w) as [|p l] eqn:E; [done|].
      exists p. apply elem_of_pronunciations. rewrite E. left.
    + intros [p Hp]. apply elem_of_pronunciations in Hp. intros E.
      rewrite E in Hp. by apply elem_of_nil in Hp.
  - intros w. rewrite elem_of_base_words. split.
    + intros Hne. destruct (pronunciations infile w) as [|p l] eqn:E; [done|].
      exists p. apply elem_of_calls. by rewrite E.
    + intros [p Hp]. apply elem_of_calls in Hp. intros E. by rewrite E in Hp.
Qed.

(** ** The shape of a parsed entry *)

Lemma Forall_sub_scan (P : ascii → Prop) r k s :
  Forall P s → Forall P (Re.sub_scan r k s).
Proof.
  intros Hs. revert k. induction Hs as [|c s Hc Hs IH]; intros k; [constructor|].
  cbn [Re.sub_scan]. destruct k as [|k]; [|apply IH].
  destruct (Re.match_len r (c :: s)) as [[|n]|]; [by constructor|apply IH|by constructor].
Qed.

Lemma Forall_split_ws (P : ascii → Prop) tok s :
  Forall P tok → Forall P s → Forall (Forall P) (split_ws tok s).
Proof.
  intros Htok Hs. revert tok Htok.
  induction Hs as [|c s Hc Hs IH]; intros tok Htok; simpl.
  - destruct tok; [constructor|]. apply Forall_cons_2; [done|constructor].
  - destruct (isspace c).
    + destruct tok; [apply IH; constructor|].
      apply Forall_cons_2; [done|]. apply IH. constructor.
    + apply IH. apply Forall_app. split; [done|].
      apply Forall_cons_2; [done|constructor].
Qed.

Lemma before_no_sep c s : Forall (λ x, x ≠ c) (before c s).
Proof.
  induction s as [|x s IH]; simpl; [constructor|].
  destruct (chr_eqb x c) eqn:E; [constructor|].
  apply Forall_cons_2; [|done]. intros ->.
  by rewrite (proj2 (chr_eqb_eq c c)) in E.
Qed.

Lemma tokens_tidy line : Forall (λ t, t ≠ [] ∧ Forall tidy t) (tokens_of line).
Proof.
  unfold tokens_of.
  pose proof (split_tokens (before "#" (strip line))) as H1.
  pose proof (Forall_split_ws (λ x, x ≠ "#"%char) [] (before "#" (strip line))
                (Forall_nil_2 _) (before_no_sep _ _)) as H2.
  fold (split (before "#" (strip line))) in H2.
  rewrite Forall_forall in H1, H2 |- *. intros t Ht.
  destruct (H1 t Ht) as [Hne Hsolid]. specialize (H2 t Ht). split; [done|].
  unfold solid in Hsolid. rewrite Forall_forall in Hsolid, H2 |- *.
  intros c Hc. split; [by apply Hsolid|by apply H2].
Qed.

(** A parsed line, in terms of its tokens. *)
Lemma parse_Some_inv line w ps :
  parse_cmudict_line line = Some (w, ps) →
  ∃ tok, tokens_of line = tok :: ps ∧ ps ≠ [] ∧ w = Re.sub_empty variant_re tok
         ∧ strip line ≠ [] ∧ startswith (py ";;;") (strip line) = false.
Proof.
  unfold parse_cmudict_line. cbv zeta. rewrite parse_parts.
  case_bool_decide as Hempty; [done|].
  destruct (startswith (py ";;;") (strip line)) eqn:Hc; [done|]. cbn [orb].
  destruct (length (tokens_of line) <? 2) eqn:Hlen; [done|].
  apply Nat.ltb_ge in Hlen.
  destruct (tokens_of line) as [|tok [|t rest]]; simpl in Hlen; [lia|lia|].
  intros [= <- <-]. exists tok. split_and!; done.
Qed.

(** X10: what [parse_cmudict_line] returns is well formed: there is at least
    one phoneme token, every phoneme token is non-empty and holds neither
    whitespace nor '#', and the base word holds neither whitespace nor '#'
    (it may be empty, for a first token that is only a variant marker). *)
Theorem parsed_entry_shape (line w : str) (ps : list str) :
  parse_cmudict_line line = Some (w, ps) →
  ps ≠ [] ∧ Forall (λ t, t ≠ [] ∧ Forall tidy t) ps ∧ Forall tidy w.
Proof.
  intros (tok & Htoks & Hne & -> & _)%parse_Some_inv.
  pose proof (tokens_tidy line) as Ht. rewrite Htoks in Ht.
  apply Forall_cons in Ht as [[_ Htok] Hps].
  split_and!; [done|done|]. by apply Forall_sub_scan.
Qed.

Lemma parsed_entry_shape_witness :
  [py "W"; py "ER1"] ≠ [] ∧
  Forall (λ t, t ≠ [] ∧ Forall tidy t) [py "W"; py "ER1"] ∧ Forall tidy (py "world").
Proof.
  apply (parsed_entry_shape (py " world(2) W  ER1 # x") (py "world") [py "W"; py "ER1"]).
  reflexivity.
Defined.

(** ** The characters of the lines that are written *)

Lemma isdigit_tidy c : isdigit c = true → tidy c.
Proof.
  unfold isdigit, tidy, isspace. intros H. split.
  - apply andb_prop in H as [H1 H2]. apply Nat.leb_le in H1, H2.
    rewrite (proj2 (Nat.leb_gt (code c) 13)) by lia.
    rewrite (proj2 (Nat.leb_gt (code c) 32)) by lia.
    rewrite (proj2 (Nat.eqb_neq (code c) 133)) by lia.
    rewrite (proj2 (Nat.eqb_neq (code c) 160)) by lia.
    by rewrite !andb_false_r.
  - intros ->. discriminate H.
Qed.

Lemma uint_digits u : digits (py (NilEmpty.string_of_uint u)).
Proof.
  unfold digits, py.
  induction u as [|u IH|u IH|u IH|u IH|u IH|u IH|u IH|u IH|u IH|u IH];
    simpl; constructor; done.
Qed.

Lemma str_of_nat_digits n : digits (str_of_nat n).
Proof. apply uint_digits. Qed.

Lemma str_of_nat_nonempty n : str_of_nat n ≠ [].
Proof.
  unfold str_of_nat.
  assert (Nat.to_uint n ≠ Decimal.Nil) as Hn.
  { rewrite <-(DecimalNat.Unsigned.of_to n) at 1.
    rewrite DecimalNat.Unsigned.to_of. unfold Decimal.unorm.
    by destruct (Decimal.nzhead (Nat.to_uint n)). }
  by destruct (Nat.to_uint n).
Qed.

Lemma word_variant_tidy w i : Forall tidy w → Forall tidy (word_variant w i).
Proof.
  intros Hw. unfold word_variant. destruct (i =? 0); [done|].
  rewrite !Forall_app. split_and!; [done| | |].
  - repeat constructor; done.
  - eapply Forall_impl; [apply str_of_nat_digits|]. apply isdigit_tidy.
  - repeat constructor; done.
Qed.

Lemma join_spaced (l : list str) :
  Forall (Forall tidy) l → Forall (λ c, c = SP ∨ tidy c) (join l).
Proof.
  induction 1 as [|x l Hx Hl IH]; [constructor|].
  destruct l as [|y l].
  - simpl. eapply Forall_impl; [exact Hx|]. by right.
  - rewrite join_cons. apply Forall_app. split.
    + eapply Forall_impl; [exact Hx|]. by right.
    + apply Forall_cons_2; [by left|exact IH].
Qed.

Lemma line_of_spaced infile c :
  c ∈ calls infile → Forall (λ ch, ch = SP ∨ tidy ch) (line_of c).
Proof.
  destruct c as [[w i] p]. intros Hc.
  assert ((w, p) ∈ entries infile) as He.
  { apply elem_of_call_pairs, list_elem_of_fmap. by exists (w, i, p). }
  unfold entries in He. apply list_elem_of_omap in He as (line & _ & He).
  unfold entry_of in He.
  destruct (parse_cmudict_line line) as [[w' ps]|] eqn:Hp; [|done].
  simplify_eq.
  apply parse_Some_inv in Hp as (tok & Htoks & _ & -> & _).
  pose proof (tokens_tidy line) as Ht. rewrite Htoks in Ht.
  apply Forall_cons in Ht as [[_ Htok] Hps].
  unfold line_of. rewrite !Forall_app. split_and!.
  - eapply Forall_impl; [apply word_variant_tidy, Forall_sub_scan, Htok|].
    by right.
  - repeat constructor.
  - apply join_spaced. apply Forall_fmap.
    eapply Forall_impl; [exact Hps|]. intros t [_ Ht]. by apply Forall_sub_scan.
Qed.

(** X11: every line written by [convert_dict] is made of plain spaces and of
    characters that are neither whitespace nor '#': it holds no line break
    (so each [print] call makes one line of the output file), no tab and no
    comment marker. *)
Theorem written_lines_charset (infile outfile : list str) (line : str) :
  line ∈ drop (length outfile) (convert_dict infile outfile).2 →
  Forall (λ ch, ch = SP ∨ tidy ch) line ∧ (LF ∉ line) ∧ ("#"%char ∉ line).
Proof.
  rewrite convert_dict_calls. cbn [snd]. rewrite drop_app_length.
  intros (c & -> & Hc)%list_elem_of_fmap.
  pose proof (line_of_spaced infile c Hc) as H. split; [done|].
  rewrite Forall_forall in H. split; intros Hin.
  - destruct (H _ Hin) as [?|[? _]]; done.
  - destruct (H _ Hin) as [?|[_ ?]]; done.
Qed.

Lemma written_lines_charset_witness : LF ∉ py "a(2) X".
Proof.
  apply (written_lines_charset
           [py "a AH0" ++ [LF]; py "a(5)  X # second" ++ [LF]] [py "old"] (py "a(2) X")).
  compute_done.
Defined.

(** ** Whitespace around a line *)

Lemma lstrip_blank ws : blank ws → lstrip ws = [].
Proof. induction 1 as [|c ws Hc _ IH]; [done|]. simpl. by rewrite Hc. Qed.

Lemma lstrip_app s t :
  lstrip (s ++ t) = if decide (lstrip s = []) then lstrip t else lstrip s ++ t.
Proof.
  induction s as [|c s IH]; [done|]. simpl. destruct (isspace c); [exact IH|].
  by rewrite decide_False.
Qed.

Lemma lstrip_blank_app ws s : blank ws → lstrip (ws ++ s) = lstrip s.
Proof. intros H. rewrite lstrip_app, lstrip_blank by done. by rewrite decide_True. Qed.

Lemma rstrip_app_blank s ws : blank ws → rstrip (s ++ ws) = rstrip s.
Proof.
  intros H. unfold rstrip. rewrite reverse_app, lstrip_blank_app; [done|].
  by apply Forall_reverse.
Qed.

Lemma strip_pad ws1 s ws2 : blank ws1 → blank ws2 → strip (ws1 ++ s ++ ws2) = strip s.
Proof.
  intros H1 H2. unfold strip. rewrite lstrip_blank_app by done.
  rewrite lstrip_app. destruct (decide (lstrip s = [])) as [E|_].
  - rewrite E, lstrip_blank by done. done.
  - by apply rstrip_app_blank.
Qed.

Lemma strip_spec line :
  ∃ ws1 ws2, blank ws1 ∧ blank ws2 ∧ line = ws1 ++ strip line ++ ws2.
Proof.
  destruct (lstrip_spec line) as (ws1 & H1 & E1).
  destruct (rstrip_spec (lstrip line)) as (ws2 & H2 & E2).
  exists ws1, ws2. split_and!; [done|done|]. unfold strip. by rewrite <-E2.
Qed.

Lemma strip_strip line : strip (strip line) = strip line.
Proof.
  destruct (strip_spec line) as (ws1 & ws2 & H1 & H2 & E).
  rewrite E at 2. by rewrite strip_pad.
Qed.

(** [parse_cmudict_line] looks at the trimmed line only. *)
Lemma parse_strip_eq l l' :
  strip l = strip l' → parse_cmudict_line l = parse_cmudict_line l'.
Proof. intros E. unfold parse_cmudict_line. cbv zeta. by rewrite E. Qed.

(** X12: whitespace before and after a line, its line terminator included,
    does not change what [parse_cmudict_line] returns. *)
Theorem parse_ignores_outer_whitespace (ws1 line ws2 : str) :
  blank ws1 → blank ws2 →
  parse_cmudict_line (ws1 ++ line ++ ws2) = parse_cmudict_line line.
Proof. intros H1 H2. apply parse_strip_eq. by apply strip_pad. Qed.

Lemma parse_ignores_outer_whitespace_witness :
  parse_cmudict_line (py "  " ++ py "hello HH AH0" ++ [LF])
  = parse_cmudict_line (py "hello HH AH0").
Proof.
  apply (parse_ignores_outer_whitespace (py "  ") (py "hello HH AH0") [LF]);
    repeat constructor.
Defined.

Lemma entries_terminated infile :
  entries ((λ line, line ++ [LF]) <$> infile) = entries infile.
Proof.
  induction infile as [|line infile IH]; [done|].
  rewrite fmap_cons, !entries_cons, IH.
  rewrite (parse_strip_eq (line ++ [LF]) line); [done|].
  apply (strip_pad [] line [LF]); [constructor|]. by repeat constructor.
Qed.

(** X13: it makes no difference whether the lines handed to [convert_dict]
    still carry their line terminator or not. *)
Theorem terminators_ignored (infile outfile : list str) :
  convert_dict ((λ line, line ++ [LF]) <$> infile) outfile
  = convert_dict infile outfile.
Proof.
  apply convert_dict_ext. intros w.
  by rewrite !heard_entries, entries_terminated.
Qed.

(** ** Inline comments *)

Lemma Forall_lstrip (P : ascii → Prop) s : Forall P s → Forall P (lstrip s).
Proof.
  induction 1 as [|c s Hc Hs IH]; [constructor|]. simpl.
  destruct (isspace c); [done|]. by constructor.
Qed.

Lemma Forall_strip (P : ascii → Prop) s : Forall P s → Forall P (strip s).
Proof.
  intros H. unfold strip, rstrip.
  by apply Forall_reverse, Forall_lstrip, Forall_reverse, Forall_lstrip.
Qed.

Lemma before_id c s : Forall (λ x, x ≠ c) s → before c s = s.
Proof.
  induction 1 as [|x s Hx _ IH]; [done|]. simpl.
  destruct (chr_eqb x c) eqn:E; [by apply chr_eqb_eq in E|]. by f_equal.
Qed.

Lemma blank_no_hash ws : blank ws → Forall (λ x, x ≠ "#"%char) ws.
Proof.
  intros H. eapply Forall_impl; [exact H|]. intros c Hc ->. discriminate Hc.
Qed.

Lemma before_app c s t :
  before c (s ++ t) = if contains c s then before c s else s ++ before c t.
Proof.
  unfold contains. induction s as [|x s IH]; [done|]. simpl.
  destruct (chr_eqb x c) eqn:E.
  - apply chr_eqb_eq in E as ->. by rewrite (proj2 (chr_eqb_eq c c)).
  - destruct (chr_eqb c x) eqn:E'.
    + apply chr_eqb_eq in E' as ->. by rewrite (proj2 (chr_eqb_eq x x)) in E.
    + simpl. rewrite IH. by destruct (existsb (chr_eqb c) s).
Qed.

Lemma contains_false c s : contains c s = false ↔ Forall (λ x, x ≠ c) s.
Proof.
  unfold contains. rewrite existsb_chr. rewrite bool_decide_eq_false, Forall_forall.
  split; [intros H x Hx ->; done|]. intros H Hin. by apply (H c).
Qed.

(** Cutting at the first '#' and trimming, in either order, leave the same
    trimmed text. *)
Lemma strip_before_strip line :
  strip (before "#" line) = strip (before "#" (strip line)).
Proof.
  destruct (strip_spec line) as (ws1 & ws2 & H1 & H2 & E).
  rewrite E at 1. rewrite !before_app.
  rewrite (proj2 (contains_false "#" ws1)) by by apply blank_no_hash.
  rewrite (before_id "#" ws2) by by apply blank_no_hash.
  destruct (contains "#" (strip line)) eqn:Hc.
  - rewrite <-(app_nil_r (before "#" (strip line))) at 1.
    apply strip_pad; [done|constructor].
  - rewrite strip_pad by done. f_equal. symmetry.
    by apply before_id, contains_false.
Qed.

Lemma startswith_app_blank p r ws :
  solid p → blank ws → startswith p (r ++ ws) = startswith p r.
Proof.
  intros Hp Hws. revert r. induction Hp as [|a p Ha Hp IH]; intros r; [done|].
  destruct r as [|c r]; simpl.
  - destruct Hws as [|b ws Hb _]; [done|].
    destruct (chr_eqb a b) eqn:E; [|done].
    apply chr_eqb_eq in E as ->. congruence.
  - by rewrite IH.
Qed.

Lemma startswith_rstrip p x : solid p → startswith p (rstrip x) = startswith p x.
Proof.
  intros Hp. destruct (rstrip_spec x) as (ws & Hws & E).
  rewrite E at 2. by rewrite startswith_app_blank.
Qed.

Lemma startswith_before p c s :
  Forall (λ x, x ≠ c) p → startswith p (before c s) = startswith p s.
Proof.
  intros Hp. revert s. induction Hp as [|a p Ha Hp IH]; intros s; [done|].
  destruct s as [|x s]; [done|]. simpl.
  destruct (chr_eqb x c) eqn:E.
  - apply chr_eqb_eq in E as ->. destruct (chr_eqb a c) eqn:E'; [|done].
    by apply chr_eqb_eq in E'.
  - simpl. by rewrite IH.
Qed.

Lemma lstrip_head s c r : lstrip s = c :: r → isspace c = false.
Proof.
  induction s as [|x s IH]; [done|]. simpl.
  destruct (isspace x) eqn:E; [done|]. by intros [= <- _].
Qed.

Lemma strip_head s c r : strip s = c :: r → isspace c = false.
Proof.
  unfold strip. intros E.
  destruct (rstrip_spec (lstrip s)) as (ws & _ & E'). rewrite E in E'.
  by apply lstrip_head in E'.
Qed.

Lemma lstrip_solid_head c s : isspace c = false → lstrip (c :: s) = c :: s.
Proof. intros H. simpl. by rewrite H. Qed.

Lemma parse_unfold line :
  parse_cmudict_line line =
    if bool_decide (strip line = []) || startswith (py ";;;") (strip line) then None
    else if length (tokens_of line) <? 2 then None
    else Some (Re.sub_empty variant_re (default [] (tokens_of line !! 0)),
               drop 1 (tokens_of line)).
Proof. unfold parse_cmudict_line. cbv zeta. by rewrite parse_parts. Qed.

Lemma tokens_of_before line : tokens_of (before "#" line) = tokens_of line.
Proof.
  unfold tokens_of. rewrite strip_before_strip.
  rewrite (before_id "#" (strip _)) by apply Forall_strip, before_no_sep.
  apply split_strip.
Qed.

Lemma split_nil_strip s : strip s = [] → split s = [].
Proof. intros E. by rewrite <-split_strip, E. Qed.

(** The guard of [parse_cmudict_line] on a line with a token. *)
Lemma guard_before line :
  tokens_of line ≠ [] →
  bool_decide (strip (before "#" line) = []) = false ∧
  bool_decide (strip line = []) = false ∧
  startswith (py ";;;") (strip (before "#" line))
  = startswith (py ";;;") (strip line).
Proof.
  intros Htok. unfold tokens_of in Htok.
  assert (strip line ≠ []) as Hne by (intros E; by rewrite E in Htok).
  assert (strip (before "#" line) ≠ []) as Hne'.
  { rewrite strip_before_strip. intros E. apply Htok.
    by apply split_nil_strip. }
  split_and!; [by apply bool_decide_eq_false_2..|].
  rewrite strip_before_strip.
  destruct (strip line) as [|c t] eqn:Et; [done|].
  pose proof (strip_head _ _ _ Et) as Hc.
  assert (chr_eqb c "#" = false) as Hh.
  { destruct (chr_eqb c "#") eqn:E; [|done]. exfalso. apply Htok.
    cbn [before]. by rewrite E. }
  assert (before "#" (c :: t) = c :: before "#" t) as Hb
    by (cbn [before]; by rewrite Hh).
  rewrite Hb. unfold strip. rewrite startswith_rstrip by (repeat constructor; done).
  rewrite lstrip_solid_head by done. rewrite <-Hb.
  apply startswith_before. repeat constructor; done.
Qed.

(** X14: everything from the first '#' of a line on is ignored:
    [parse_cmudict_line] returns the same result for the line and for the
    line cut at its first '#'. *)
Theorem parse_ignores_inline_comment (line : str) :
  parse_cmudict_line (before "#" line) = parse_cmudict_line line.
Proof.
  rewrite !parse_unfold, tokens_of_before.
  destruct (length (tokens_of line) <? 2) eqn:Hlen.
  - by destruct (_ || _), (_ || _).
  - apply Nat.ltb_ge in Hlen.
    assert (tokens_of line ≠ []) as Hne
      by (intros E; rewrite E in Hlen; simpl in Hlen; lia).
    destruct (guard_before line Hne) as (-> & -> & ->). done.
Qed.

(** ** Reading back a line that was written *)

Lemma split_ws_solid_app tok t s :
  solid t → split_ws tok (t ++ s) = split_ws (tok ++ t) s.
Proof.
  intros Ht. revert tok. induction Ht as [|c t Hc _ IH]; intros tok.
  - by rewrite app_nil_r.
  - cbn [app split_ws]. rewrite Hc, IH. by rewrite <-(assoc_L (++)).
Qed.

Lemma split_token_space t s :
  t ≠ [] → solid t → split (t ++ SP :: s) = t :: split s.
Proof.
  intros Hne Ht. unfold split. rewrite split_ws_solid_app by done.
  rewrite app_nil_l. cbn [split_ws]. by destruct t.
Qed.

Lemma split_token t : t ≠ [] → solid t → split t = [t].
Proof.
  intros Hne Ht. unfold split. rewrite <-(app_nil_r t) at 1.
  rewrite split_ws_solid_app by done. rewrite app_nil_l. cbn [split_ws].
  by destruct t.
Qed.

Lemma split_join toks :
  Forall (λ t, t ≠ [] ∧ solid t) toks → split (join toks) = toks.
Proof.
  induction 1 as [|x l [Hne Hx] Hl IH]; [done|].
  destruct l as [|y l]; [by apply split_token|].
  rewrite join_cons, split_token_space by done. by rewrite IH.
Qed.

Lemma tidy_solid t : Forall tidy t → solid t.
Proof. intros H. eapply Forall_impl; [exact H|]. by intros c [? _]. Qed.

Lemma tidy_no_hash t : Forall tidy t → Forall (λ x, x ≠ "#"%char) t.
Proof. intros H. eapply Forall_impl; [exact H|]. by intros c [_ ?]. Qed.

Lemma split_ws_first tok s tk rest :
  tok ≠ [] → split_ws tok s = tk :: rest → tk `prefix_of` tok ++ s.
Proof.
  revert tok. induction s as [|c s IH]; intros tok Hne; simpl.
  - destruct tok; [done|]. intros [= <- _]. by rewrite app_nil_r.
  - destruct (isspace c).
    + destruct tok; [done|]. intros [= <- _]. by apply prefix_app_r.
    + intros E. apply IH in E; [|by destruct tok].
      by rewrite <-(assoc_L (++)) in E.
Qed.

Lemma before_prefix c s : before c s `prefix_of` s.
Proof.
  induction s as [|x s IH]; [done|]. simpl.
  destruct (chr_eqb x c); [apply prefix_nil|by apply prefix_cons].
Qed.

(** The base word of a parsed line does not look like a comment. *)
Lemma parsed_word_not_comment line w ps :
  parse_cmudict_line line = Some (w, ps) → startswith (py ";;;") w = false.
Proof.
  intros (tok & Htoks & _ & -> & Hne & Hc)%parse_Some_inv.
  pose proof (tokens_tidy line) as Ht. rewrite Htoks in Ht.
  apply Forall_cons in Ht as [[_ Htok] _].
  destruct (startswith (py ";;;") (Re.sub_empty variant_re tok)) eqn:E; [|done].
  exfalso. apply startswith_prefix in E.
  assert (Re.sub_empty variant_re tok `prefix_of` tok) as Hw.
  { destruct (sub_variant_base tok) as [(ds & _ & _ & Hv)|[_ ->]]; [| |done].
    - by apply solid_no_newline, tidy_solid.
    - rewrite Hv at 2. by apply prefix_app_r. }
  assert (tok `prefix_of` strip line) as Hp.
  { unfold tokens_of in Htoks. destruct (strip line) as [|c t] eqn:Et; [done|].
    pose proof (strip_head _ _ _ Et) as Hsp.
    transitivity (before "#" (c :: t)); [|apply before_prefix].
    cbn [before] in Htoks |- *. destruct (chr_eqb c "#"); [done|].
    unfold split in Htoks. cbn [split_ws] in Htoks. rewrite Hsp in Htoks.
    by apply split_ws_first in Htoks. }
  assert (py ";;;" `prefix_of` strip line) as Hs by (by etrans; [|etrans]).
  apply startswith_prefix in Hs. congruence.
Qed.

Lemma startswith_semis_app w c rest :
  c ≠ ";"%char → startswith (py ";;;") w = false →
  startswith (py ";;;") (w ++ c :: rest) = false.
Proof.
  intros Hc Hw.
  assert (chr_eqb ";" c = false) as E.
  { destruct (chr_eqb ";" c) eqn:E; [|done]. by apply chr_eqb_eq in E. }
  destruct w as [|a [|b [|d w]]]; simpl in *.
  - by rewrite E.
  - by rewrite E, !andb_false_r.
  - by rewrite E, !andb_false_r.
  - done.
Qed.

Lemma word_variant_base w i :
  (i = 0 → Re.sub_empty variant_re w = w) →
  Re.sub_empty variant_re (word_variant w i) = w.
Proof.
  intros H0. unfold word_variant. destruct i as [|i]; [by apply H0|].
  cbn [Nat.eqb]. apply sub_variant_marked;
    [apply str_of_nat_nonempty|apply str_of_nat_digits].
Qed.

Lemma word_variant_nonempty w i : (i = 0 → w ≠ []) → word_variant w i ≠ [].
Proof.
  intros H0. unfold word_variant. destruct i as [|i]; [by apply H0|].
  cbn [Nat.eqb]. by destruct w.
Qed.

Lemma word_variant_not_comment w i rest :
  startswith (py ";;;") w = false →
  startswith (py ";;;") (word_variant w i ++ SP :: rest) = false.
Proof.
  intros Hw. unfold word_variant. destruct (i =? 0).
  - by apply startswith_semis_app.
  - rewrite <-!(assoc_L (++)). by apply startswith_semis_app.
Qed.

(** X15: a written line reads back: the line written for a parsed entry,
    under any index, is parsed by [parse_cmudict_line] into the same base
    word and the normalized phonemes, provided no normalized phoneme is empty
    and, for the line under the bare word, the base word is non-empty and
    carries no variant marker of its own. *)
Theorem written_line_parses_back (line w : str) (ps : list str) (i : nat) :
  parse_cmudict_line line = Some (w, ps) →
  [] ∉ (strip_stress <$> ps) →
  (i = 0 → w ≠ [] ∧ Re.sub_empty variant_re w = w) →
  parse_cmudict_line (line_of (w, i, join (strip_stress <$> ps)))
  = Some (w, strip_stress <$> ps).
Proof.
  intros Hparse Hfull H0.
  pose proof (parsed_word_not_comment _ _ _ Hparse) as Hcomment.
  apply parse_Some_inv in Hparse as (tok & Htoks & Hps & -> & _).
  pose proof (tokens_tidy line) as Ht. rewrite Htoks in Ht.
  apply Forall_cons in Ht as [[_ Htok] Htidy].
  set (w := Re.sub_empty variant_re tok) in *.
  set (toks := strip_stress <$> ps) in *.
  assert (Forall tidy w) as Hw by (by apply Forall_sub_scan).
  assert (Forall (λ t, t ≠ [] ∧ Forall tidy t) toks) as Htoks'.
  { apply Forall_forall. intros t Hin. split; [by intros ->|].
    apply list_elem_of_fmap in Hin as (t0 & -> & Hin).
    rewrite Forall_forall in Htidy. by apply Forall_sub_scan, Htidy. }
  assert (toks ≠ []) as Hne by (subst toks; by destruct ps).
  assert (word_variant w i ≠ []) as Hwv
    by (apply word_variant_nonempty; intros ?; by apply H0).
  pose proof (word_variant_tidy w i Hw) as Hwvt.
  unfold line_of. change (py " " ++ join toks) with (SP :: join toks).
  set (out := word_variant w i ++ SP :: join toks).
  assert (Forall (λ x, x ≠ "#"%char) out) as Hhash.
  { subst out. apply Forall_app. split; [by apply tidy_no_hash|].
    apply Forall_cons_2; [done|].
    eapply Forall_impl; [apply join_spaced|].
    - eapply Forall_impl; [exact Htoks'|]. by intros t [_ ?].
    - intros c [->|[_ ?]]; done. }
  assert (tokens_of out = word_variant w i :: toks) as Hout.
  { unfold tokens_of. rewrite before_id by by apply Forall_strip.
    rewrite split_strip. subst out.
    rewrite split_token_space by (by try apply tidy_solid).
    f_equal. apply split_join.
    eapply Forall_impl; [exact Htoks'|]. intros t [? ?]. split; [done|].
    by apply tidy_solid. }
  assert (strip out ≠ []) as Hstrip.
  { intros E. apply split_nil_strip in E. unfold tokens_of in Hout.
    rewrite before_id, split_strip, E in Hout by by apply Forall_strip. done. }
  assert (startswith (py ";;;") (strip out) = false) as Hguard.
  { unfold strip. rewrite startswith_rstrip by (repeat constructor; done).
    subst out. destruct (word_variant w i) as [|c wv] eqn:Ewv; [done|].
    apply Forall_cons in Hwvt as [[Hc _] _].
    change ((c :: wv) ++ SP :: join toks) with (c :: (wv ++ SP :: join toks)).
    rewrite lstrip_solid_head by done.
    change (c :: (wv ++ SP :: join toks)) with ((c :: wv) ++ SP :: join toks).
    rewrite <-Ewv. by apply word_variant_not_comment. }
  rewrite parse_unfold, Hout, Hguard.
  rewrite bool_decide_eq_false_2 by done. cbn [orb].
  destruct toks as [|t toks']; [done|]. cbn [length Nat.ltb Nat.leb].
  cbn [lookup list_lookup default drop]. f_equal. f_equal.
  apply word_variant_base. intros ?. by apply H0.
Qed.

Lemma written_line_parses_back_witness :
  parse_cmudict_line (line_of (py "read", 0, join (strip_stress <$> [py "R"; py "EH2"; py "D"])))
  = Some (py "read", strip_stress <$> [py "R"; py "EH2"; py "D"]).
Proof.
  apply (written_line_parses_back (py "read(3) R EH2 D") (py "read")
           [py "R"; py "EH2"; py "D"] 0).
  - reflexivity.
  - compute_done.
  - intros _. split; [compute_done|reflexivity].
Defined.
